(** * Cluster configuration resolution and release-storage driver selection

    A shallow embedding of [pkg/service/runtime_provider/config_flags.go]:
    the [ConfigFlags] record, its [RESTClientGetter] methods, flag binding,
    the once-guarded process-wide getter and [NewActionConfig].

    Conventions of the embedding.
    - A Go pointer or interface value that may be [nil] is an [option]
      ([None] is [nil]).
    - [*ConfigFlags] values are addresses into a heap of [ConfigFlags]
      objects, so that two getters can be compared by identity.
    - The package-level variables [config] and [configOnce] are the fields
      of [State]; every function that reads or writes them passes the state.
    - [log.Fatal] and [panic] end the process: they are the [Fatal] and
      [Panicked] outcomes of a call.
    - Packages outside this repository's sources (client-go's [clientcmd],
      Helm's [kube], [os], [homedir], [filepath]) are black boxes: the
      operations whose results the code inspects are the fields of
      [Collaborators]; operations that only build a value are constructors
      of an inductive type that records their arguments. *)

From Stdlib Require Import Strings.String Strings.Ascii Lists.List Bool.Bool Strings.Byte Arith.Arith ZArith.ZArith Lia.
From stdpp Require Import base option list strings relations sorting.

Open Scope string_scope.
Open Scope list_scope.

(** ** Flag names (the [const] block) *)

Definition flagClusterName : string := "cluster".
Definition flagAuthInfoName : string := "user".
Definition flagContext : string := "context".
Definition flagNamespace : string := "namespace".
Definition flagAPIServer : string := "server".
Definition flagInsecure : string := "insecure-skip-tls-verify".
Definition flagCertFile : string := "client-certificate".
Definition flagKeyFile : string := "client-key".
Definition flagCAFile : string := "certificate-authority".
Definition flagBearerToken : string := "token".
Definition flagImpersonate : string := "as".
Definition flagImpersonateGroup : string := "as-group".
Definition flagUsername : string := "username".
Definition flagPassword : string := "password".
Definition flagTimeout : string := "request-timeout".
Definition flagHTTPCacheDir : string := "cache-dir".

(** ** Outcomes *)

(** The value carried by a Go panic: a nil dereference raised by the
    runtime, or the string given to [panic]. *)
Inductive panic_value : Type :=
| NilDereference
| PanicString (msg : string).

(** How a call ends: it returns, [log.Fatal] exits the process, or it
    panics. *)
Inductive outcome (E A : Type) : Type :=
| Returned (a : A)
| Fatal (err : E)
| Panicked (v : panic_value).

Arguments Returned {E A} a.
Arguments Fatal {E A} err.
Arguments Panicked {E A} v.

Definition returns {E A} (o : outcome E A) : bool :=
  match o with Returned _ => true | _ => false end.

(** ** The flag sink ([pflag.FlagSet])

    A flag set is the sequence of the flags registered on it, in
    registration order. What pflag itself does with a registration (it
    panics when a name is registered twice) is outside this model. *)

Inductive FlagValue : Type :=
| StringValue (s : string)
| BoolValue (b : bool)
| StringArrayValue (l : list string).

Record Flag : Type := mkFlag {
  Name : string;
  Shorthand : string;
  DefValue : FlagValue;
  Usage : string
}.

Definition FlagSet : Type := list Flag.

Definition StringVarP (name shorthand value usage : string) (flags : FlagSet) : FlagSet :=
  flags ++ [mkFlag name shorthand (StringValue value) usage].

Definition StringVar (name value usage : string) (flags : FlagSet) : FlagSet :=
  StringVarP name "" value usage flags.

Definition BoolVar (name : string) (value : bool) (usage : string) (flags : FlagSet) : FlagSet :=
  flags ++ [mkFlag name "" (BoolValue value) usage].

Definition StringArrayVar (name : string) (value : list string) (usage : string)
    (flags : FlagSet) : FlagSet :=
  flags ++ [mkFlag name "" (StringArrayValue value) usage].

(** A pointer to a [ConfigFlags] object, and the [RESTClientGetter]
    interface value holding one ([None] is the nil interface). *)
Abbreviation ptr := nat (only parsing).
Definition RESTClientGetter : Type := option ptr.

(** ** Values built by the collaborating packages *)

(** [kube.New(getter)]. *)
Inductive KubeClient : Type :=
| kube_New (getter : RESTClientGetter).

Section Embedding.

(** Opaque types of the collaborating packages: Go's [error], a non-nil
    [clientcmd.ClientConfig], [*kubernetes.Clientset] and
    [discovery.CachedDiscoveryInterface]. *)
Variables (error ClientConfig Clientset DiscoveryClient : Type).

(** [clientset.CoreV1()], then [.Secrets(namespace)] and
    [.ConfigMaps(namespace)]. *)
Inductive CoreV1Interface : Type :=
| CoreV1 (clientset : Clientset).

Inductive SecretInterface : Type :=
| Secrets (c : CoreV1Interface) (namespace : string).

Inductive ConfigMapInterface : Type :=
| ConfigMaps (c : CoreV1Interface) (namespace : string).

(** The three release-storage drivers of Helm's [driver] package. *)
Inductive Driver : Type :=
| NewSecrets (impl : SecretInterface)
| NewConfigMaps (impl : ConfigMapInterface)
| NewMemory.

(** [storage.Init(d)]. *)
Inductive Storage : Type :=
| storage_Init (d : Driver).

(** The namespace a store is scoped to; the in-memory driver has none. *)
Definition driver_namespace (d : Driver) : option string :=
  match d with
  | NewSecrets (Secrets _ ns) => Some ns
  | NewConfigMaps (ConfigMaps _ ns) => Some ns
  | NewMemory => None
  end.

Definition storage_namespace (s : Storage) : option string :=
  match s with storage_Init d => driver_namespace d end.

(** [restmapper.NewDeferredDiscoveryRESTMapper] and
    [restmapper.NewShortcutExpander]. *)
Inductive RESTMapper : Type :=
| NewDeferredDiscoveryRESTMapper (cl : option DiscoveryClient)
| NewShortcutExpander (delegate : RESTMapper) (cl : option DiscoveryClient).

(** The discovery client a mapper was built over. *)
Definition mapper_client (m : RESTMapper) : option DiscoveryClient :=
  match m with
  | NewDeferredDiscoveryRESTMapper cl => cl
  | NewShortcutExpander _ cl => cl
  end.

(** [action.Configuration]; [Log] is a function value, only ever nil here. *)
Record Configuration : Type := mkConfiguration {
  cfg_RESTClientGetter : RESTClientGetter;
  cfg_KubeClient : KubeClient;
  cfg_Releases : Storage;
  cfg_Log : option unit
}.

(** ** [ConfigFlags]

    The [lock] field is left out: calls are sequential in this model. *)
Record ConfigFlags : Type := mkConfigFlags {
  CacheDir : option string;
  KubeConfig : option string;
  ClusterName : option string;
  AuthInfoName : option string;
  Context : option string;
  Namespace : option string;
  APIServer : option string;
  Insecure : option bool;
  CertFile : option string;
  KeyFile : option string;
  CAFile : option string;
  BearerToken : option string;
  Impersonate : option string;
  ImpersonateGroup : option (list string);
  Username : option string;
  Password : option string;
  Timeout : option string;
  clientConfig : option ClientConfig;
  usePersistentConfig : bool;
  CredentialContent : list byte
}.

Definition set_clientConfig (cc : option ClientConfig) (f : ConfigFlags) : ConfigFlags :=
  mkConfigFlags (CacheDir f) (KubeConfig f) (ClusterName f) (AuthInfoName f)
    (Context f) (Namespace f) (APIServer f) (Insecure f) (CertFile f) (KeyFile f)
    (CAFile f) (BearerToken f) (Impersonate f) (ImpersonateGroup f) (Username f)
    (Password f) (Timeout f) cc (usePersistentConfig f) (CredentialContent f).

(** The zero value of the struct: every pointer nil. *)
Definition zeroConfigFlags : ConfigFlags :=
  mkConfigFlags None None None None None None None None None None None None
    None None None None None None false [].

(** ** Process state: the package-level variables and the heap *)
Record State : Type := mkState {
  heap : list ConfigFlags;
  config : RESTClientGetter;
  configOnce : bool
}.

(** The state at process start: nothing allocated, [config] nil, the
    [sync.Once] not yet fired. *)
Definition initialState : State := mkState [] None false.

Definition set_heap (h : list ConfigFlags) (st : State) : State :=
  mkState h (config st) (configOnce st).
Definition set_config (g : RESTClientGetter) (st : State) : State :=
  mkState (heap st) g (configOnce st).
Definition set_configOnce (b : bool) (st : State) : State :=
  mkState (heap st) (config st) b.

(** [&ConfigFlags{...}]: a fresh object at the end of the heap. *)
Definition alloc (f : ConfigFlags) (st : State) : ptr * State :=
  (length (heap st), set_heap (heap st ++ [f]) st).

(** Stateful calls that may end the process. *)
Definition M (A : Type) : Type := State -> outcome error (A * State).

Definition ret {A} (a : A) : M A := fun st => Returned (a, st).

Definition bind {A B} (m : M A) (k : A -> M B) : M B :=
  fun st =>
    match m st with
    | Returned (a, st') => k a st'
    | Fatal err => Fatal err
    | Panicked v => Panicked v
    end.

Definition lift {A} (f : State -> A * State) : M A :=
  fun st => Returned (f st).

Definition log_Fatal {A} (err : error) : M A := fun _ => Fatal err.
Definition panic {A} (msg : string) : M A := fun _ => Panicked (PanicString msg).
Definition nil_dereference {A} : M A := fun _ => Panicked NilDereference.

Notation "'let*' x := c1 'in' c2" := (bind c1 (fun x => c2))
  (at level 10, x name, c1 at level 100, c2 at level 200).

(** ** The collaborating packages' operations *)
Record Collaborators : Type := mkCollaborators {
  (** [clientcmd.NewClientConfigFromBytes]: the loader (nil on failure)
      and the error. *)
  NewClientConfigFromBytes : list byte -> option ClientConfig * option error;
  (** [ClientConfig.Namespace()]: namespace, whether it was overridden,
      and the error. *)
  ClientConfig_Namespace : ClientConfig -> string * bool * option error;
  (** [KubernetesClientSet()] of a [kube.Client]: the client set and the
      error. The client reads the getter it was built from; here that is
      the non-persistent [config] object, whose methods change nothing. *)
  KubernetesClientSet : KubeClient -> Clientset * option error;
  (** [os.Getenv]. *)
  Getenv : string -> string;
  (** [homedir.HomeDir()]. *)
  HomeDir : string;
  (** [filepath.Join]. *)
  filepath_Join : list string -> string
}.

Section Operations.

Variable W : Collaborators.

Definition defaultCacheDir : string :=
  filepath_Join W [HomeDir W; ".kube"; "http-cache"].

(** *** Loaders *)

Definition toRawKubeConfigLoader (f : ConfigFlags) : option ClientConfig :=
  let '(clientConfig, _) := NewClientConfigFromBytes W [] in
  clientConfig.

Definition toRawKubePersistentConfigLoader (f : ConfigFlags)
    : option ClientConfig * ConfigFlags :=
  let f' :=
    match clientConfig f with
    | None => set_clientConfig (toRawKubeConfigLoader f) f
    | Some _ => f
    end in
  (clientConfig f', f').

Definition ToRawKubeConfigLoader (f : ConfigFlags) : option ClientConfig * ConfigFlags :=
  if usePersistentConfig f then toRawKubePersistentConfigLoader f
  else (toRawKubeConfigLoader f, f).

(** A method with a pointer receiver, called through a [*ConfigFlags]. *)
Definition call {A} (m : ConfigFlags -> A * ConfigFlags) (p : ptr) : M A :=
  fun st =>
    match heap st !! p with
    | Some f => let '(a, f') := m f in Returned (a, set_heap (<[p := f']> (heap st)) st)
    | None => Panicked NilDereference
    end.

(** The same, through a [RESTClientGetter] interface value. *)
Definition getter_ToRawKubeConfigLoader (g : RESTClientGetter) : M (option ClientConfig) :=
  match g with
  | Some p => call ToRawKubeConfigLoader p
  | None => nil_dereference
  end.

(** *** Discovery *)

Definition ToDiscoveryClient (f : ConfigFlags) : option DiscoveryClient * option error :=
  (None, None).

Definition ToRESTMapper (f : ConfigFlags) : option RESTMapper * option error :=
  let '(discoveryClient, err) := ToDiscoveryClient f in
  match err with
  | Some e => (None, Some e)
  | None =>
      let mapper := NewDeferredDiscoveryRESTMapper discoveryClient in
      let expander := NewShortcutExpander mapper discoveryClient in
      (Some expander, None)
  end.

(** *** Flag binding *)

Definition bindString (field : option string) (name usage : string) (flags : FlagSet) : FlagSet :=
  match field with
  | Some v => StringVar name v usage flags
  | None => flags
  end.

Definition bindStringP (field : option string) (name shorthand usage : string)
    (flags : FlagSet) : FlagSet :=
  match field with
  | Some v => StringVarP name shorthand v usage flags
  | None => flags
  end.

Definition AddFlags (f : ConfigFlags) (flags : FlagSet) : FlagSet :=
  let flags := bindString (KubeConfig f) "kubeconfig"
    "Path to the kubeconfig file to use for CLI requests." flags in
  let flags := bindString (CacheDir f) flagHTTPCacheDir "Default HTTP cache directory" flags in
  let flags := bindString (CertFile f) flagCertFile
    "Path to a client certificate file for TLS" flags in
  let flags := bindString (KeyFile f) flagKeyFile "Path to a client key file for TLS" flags in
  let flags := bindString (BearerToken f) flagBearerToken
    "Bearer token for authentication to the API server" flags in
  let flags := bindString (Impersonate f) flagImpersonate
    "Username to impersonate for the operation" flags in
  let flags :=
    match ImpersonateGroup f with
    | Some v => StringArrayVar flagImpersonateGroup v
        "Group to impersonate for the operation, this flag can be repeated to specify multiple groups."
        flags
    | None => flags
    end in
  let flags := bindString (Username f) flagUsername
    "Username for basic authentication to the API server" flags in
  let flags := bindString (Password f) flagPassword
    "Password for basic authentication to the API server" flags in
  let flags := bindString (ClusterName f) flagClusterName
    "The name of the kubeconfig cluster to use" flags in
  let flags := bindString (AuthInfoName f) flagAuthInfoName
    "The name of the kubeconfig user to use" flags in
  let flags := bindStringP (Namespace f) flagNamespace "n"
    "If present, the namespace scope for this CLI request" flags in
  let flags := bindString (Context f) flagContext
    "The name of the kubeconfig context to use" flags in
  let flags := bindStringP (APIServer f) flagAPIServer "s"
    "The address and port of the Kubernetes API server" flags in
  let flags :=
    match Insecure f with
    | Some v => BoolVar flagInsecure v
        "If true, the server's certificate will not be checked for validity. This will make your HTTPS connections insecure"
        flags
    | None => flags
    end in
  let flags := bindString (CAFile f) flagCAFile
    "Path to a cert file for the certificate authority" flags in
  let flags := bindString (Timeout f) flagTimeout
    "The length of time to wait before giving up on a single server request. Non-zero values should contain a corresponding time unit (e.g. 1s, 2m, 3h). A value of zero means don't timeout requests."
    flags in
  flags.

(** *** Defaults *)

Definition stringptr (val : string) : option string := Some val.

(** The composite literal of [NewConfigFlags]; [Username] and [Password]
    are not among its fields and keep their zero value. *)
Definition defaultConfigFlags (usePersistentConfig : bool) (credentialContent : list byte)
    : ConfigFlags :=
  let impersonateGroup : list string := [] in
  let insecure := false in
  {| Insecure := Some insecure;
     Timeout := stringptr "0";
     KubeConfig := stringptr "";
     CacheDir := stringptr defaultCacheDir;
     ClusterName := stringptr "";
     AuthInfoName := stringptr "";
     Context := stringptr "";
     Namespace := stringptr "";
     APIServer := stringptr "";
     CertFile := stringptr "";
     KeyFile := stringptr "";
     CAFile := stringptr "";
     BearerToken := stringptr "";
     Impersonate := stringptr "";
     ImpersonateGroup := Some impersonateGroup;
     Username := None;
     Password := None;
     clientConfig := None;
     usePersistentConfig := usePersistentConfig;
     CredentialContent := credentialContent |}.

Definition NewConfigFlags (usePersistentConfig : bool) (credentialContent : list byte)
    (st : State) : ptr * State :=
  alloc (defaultConfigFlags usePersistentConfig credentialContent) st.

(** *** The process-wide getter *)

(** [configOnce.Do(f)]: runs [f] unless the guard has fired, then marks it
    fired. *)
Definition configOnce_Do (f : State -> State) (st : State) : State :=
  if configOnce st then st else set_configOnce true (f st).

Definition kubeConfig (credentialContent : list byte) (st : State) : RESTClientGetter * State :=
  let st' :=
    configOnce_Do
      (fun s => let '(p, s') := NewConfigFlags false credentialContent s in
                set_config (Some p) s')
      st in
  (config st', st').

Definition getNamespace (credentialContent : list byte) : M string :=
  let* g := lift (kubeConfig credentialContent) in
  let* loader := getter_ToRawKubeConfigLoader g in
  match loader with
  | None => nil_dereference
  | Some cc =>
      let '(ns, _, err) := ClientConfig_Namespace W cc in
      match err with
      | None => ret ns
      | Some _ => ret "default"
      end
  end.

(** *** Building the action configuration *)

(** The working namespace (the [var namespace string] block). *)
Definition workingNamespace (allNamespaces : bool) (credentialContent : list byte) : M string :=
  if negb allNamespaces then getNamespace credentialContent else ret "".

(** The [switch os.Getenv("HELM_DRIVER")] block. *)
Definition newStore (clientset : Clientset) (namespace : string) : M Storage :=
  let driver := Getenv W "HELM_DRIVER" in
  if (driver =? "secret") || (driver =? "secrets") || (driver =? "") then
    let d := NewSecrets (Secrets (CoreV1 clientset) namespace) in
    ret (storage_Init d)
  else if (driver =? "configmap") || (driver =? "configmaps") then
    let d := NewConfigMaps (ConfigMaps (CoreV1 clientset) namespace) in
    ret (storage_Init d)
  else if driver =? "memory" then
    let d := NewMemory in
    ret (storage_Init d)
  else
    panic ("Unknown driver in HELM_DRIVER: " ++ Getenv W "HELM_DRIVER").

Definition NewActionConfig (allNamespaces : bool) (credentialContent : list byte)
    : M Configuration :=
  let* g := lift (kubeConfig credentialContent) in
  let kc := kube_New g in
  let '(clientset, err) := KubernetesClientSet W kc in
  match err with
  | Some e => log_Fatal e
  | None =>
      let* namespace := workingNamespace allNamespaces credentialContent in
      let* store := newStore clientset namespace in
      let* g' := lift (kubeConfig credentialContent) in
      ret {| cfg_RESTClientGetter := g';
             cfg_KubeClient := kc;
             cfg_Releases := store;
             cfg_Log := None |}
  end.

(** *** States the package can be in *)

(** Once the guard has fired, [config] points to a live object built by
    [NewConfigFlags(false, _)]. *)
Definition consistent (st : State) : bool :=
  if configOnce st then
    match config st with
    | Some p =>
        match heap st !! p with
        | Some f => negb (usePersistentConfig f)
        | None => false
        end
    | None => false
    end
  else true.

(** One completed call of the package: each constructor is a function a
    caller can invoke, with the state it leaves behind. *)
Inductive step : State -> State -> Prop :=
| step_kubeConfig c st :
    step st (snd (kubeConfig c st))
| step_getNamespace c st ns st' :
    getNamespace c st = Returned (ns, st') -> step st st'
| step_NewActionConfig a c st cfg st' :
    NewActionConfig a c st = Returned (cfg, st') -> step st st'
| step_NewConfigFlags b c st :
    step st (snd (NewConfigFlags b c st))
| step_ToRawKubeConfigLoader p st loader st' :
    call ToRawKubeConfigLoader p st = Returned (loader, st') -> step st st'.

End Operations.

End Embedding.

Arguments CoreV1 {Clientset} clientset.
Arguments Secrets {Clientset} c namespace.
Arguments ConfigMaps {Clientset} c namespace.
Arguments NewSecrets {Clientset} impl.
Arguments NewConfigMaps {Clientset} impl.
Arguments NewMemory {Clientset}.
Arguments storage_Init {Clientset} d.
Arguments driver_namespace {Clientset} d.
Arguments storage_namespace {Clientset} s.
Arguments NewDeferredDiscoveryRESTMapper {DiscoveryClient} cl.
Arguments NewShortcutExpander {DiscoveryClient} delegate cl.
Arguments mapper_client {DiscoveryClient} m.
Arguments mkConfiguration {Clientset}.
Arguments cfg_RESTClientGetter {Clientset} c.
Arguments cfg_KubeClient {Clientset} c.
Arguments cfg_Releases {Clientset} c.
Arguments cfg_Log {Clientset} c.
Arguments mkConfigFlags {ClientConfig}.
Arguments CacheDir {ClientConfig} c.
Arguments KubeConfig {ClientConfig} c.
Arguments ClusterName {ClientConfig} c.
Arguments AuthInfoName {ClientConfig} c.
Arguments Context {ClientConfig} c.
Arguments Namespace {ClientConfig} c.
Arguments APIServer {ClientConfig} c.
Arguments Insecure {ClientConfig} c.
Arguments CertFile {ClientConfig} c.
Arguments KeyFile {ClientConfig} c.
Arguments CAFile {ClientConfig} c.
Arguments BearerToken {ClientConfig} c.
Arguments Impersonate {ClientConfig} c.
Arguments ImpersonateGroup {ClientConfig} c.
Arguments Username {ClientConfig} c.
Arguments Password {ClientConfig} c.
Arguments Timeout {ClientConfig} c.
Arguments clientConfig {ClientConfig} c.
Arguments usePersistentConfig {ClientConfig} c.
Arguments CredentialContent {ClientConfig} c.
Arguments set_clientConfig {ClientConfig} cc f.
Arguments zeroConfigFlags {ClientConfig}.
Arguments mkState {ClientConfig}.
Arguments heap {ClientConfig} s.
Arguments config {ClientConfig} s.
Arguments configOnce {ClientConfig} s.
Arguments initialState {ClientConfig}.
Arguments alloc {ClientConfig} f st.
Arguments ret {error ClientConfig A} a.
Arguments bind {error ClientConfig A B} m k.
Arguments mkCollaborators {error ClientConfig Clientset}.
Arguments NewClientConfigFromBytes {error ClientConfig Clientset} c.
Arguments ClientConfig_Namespace {error ClientConfig Clientset} c.
Arguments KubernetesClientSet {error ClientConfig Clientset} c.
Arguments Getenv {error ClientConfig Clientset} c.
Arguments HomeDir {error ClientConfig Clientset} c.
Arguments filepath_Join {error ClientConfig Clientset} c.
Arguments defaultCacheDir {error ClientConfig Clientset} W.
Arguments toRawKubeConfigLoader {error ClientConfig Clientset} W f.
Arguments toRawKubePersistentConfigLoader {error ClientConfig Clientset} W f.
Arguments ToRawKubeConfigLoader {error ClientConfig Clientset} W f.
Arguments call {error ClientConfig A} m p.
Arguments getter_ToRawKubeConfigLoader {error ClientConfig Clientset} W g.
Arguments ToDiscoveryClient {error ClientConfig DiscoveryClient} f.
Arguments ToRESTMapper {error ClientConfig DiscoveryClient} f.
Arguments AddFlags {ClientConfig} f flags.
Arguments defaultConfigFlags {error ClientConfig Clientset} W.
Arguments NewConfigFlags {error ClientConfig Clientset} W.
Arguments configOnce_Do {ClientConfig} f st.
Arguments kubeConfig {error ClientConfig Clientset} W.
Arguments getNamespace {error ClientConfig Clientset} W.
Arguments workingNamespace {error ClientConfig Clientset} W.
Arguments newStore {error ClientConfig Clientset} W.
Arguments NewActionConfig {error ClientConfig Clientset} W.
Arguments consistent {ClientConfig} st.
Arguments step {error ClientConfig Clientset} W.

(** ** The documented flag surface

    The flag names and shorthands as the specification lists them, each
    with the optional field it exposes and the default value that field
    yields. [AddFlags] is compared with this table below. *)
Definition documentedFlags {ClientConfig : Type}
    : list (string * string * (ConfigFlags ClientConfig -> option FlagValue)) :=
  [ ("kubeconfig", "", fun f => StringValue <$> KubeConfig f);
    ("cache-dir", "", fun f => StringValue <$> CacheDir f);
    ("client-certificate", "", fun f => StringValue <$> CertFile f);
    ("client-key", "", fun f => StringValue <$> KeyFile f);
    ("token", "", fun f => StringValue <$> BearerToken f);
    ("as", "", fun f => StringValue <$> Impersonate f);
    ("as-group", "", fun f => StringArrayValue <$> ImpersonateGroup f);
    ("username", "", fun f => StringValue <$> Username f);
    ("password", "", fun f => StringValue <$> Password f);
    ("cluster", "", fun f => StringValue <$> ClusterName f);
    ("user", "", fun f => StringValue <$> AuthInfoName f);
    ("namespace", "n", fun f => StringValue <$> Namespace f);
    ("context", "", fun f => StringValue <$> Context f);
    ("server", "s", fun f => StringValue <$> APIServer f);
    ("insecure-skip-tls-verify", "", fun f => BoolValue <$> Insecure f);
    ("certificate-authority", "", fun f => StringValue <$> CAFile f);
    ("request-timeout", "", fun f => StringValue <$> Timeout f) ].

(** The flags of a set that carry a given name. *)
Definition named (n : string) (flags : FlagSet) : FlagSet :=
  List.filter (fun fl => Name fl =? n) flags.

(** The registration an optional field gives rise to: one flag when the
    field is set, none when it is nil. *)
Definition optFlag (name shorthand usage : string) (v : option FlagValue) : FlagSet :=
  match v with
  | Some d => [mkFlag name shorthand d usage]
  | None => []
  end.

(** What identifies a registration: name, shorthand and default value. *)
Definition flagKey (fl : Flag) : string * string * FlagValue :=
  (Name fl, Shorthand fl, DefValue fl).

(** The registration the table expects of an entry for a given record. *)
Definition expected {ClientConfig : Type} (f : ConfigFlags ClientConfig)
    (e : string * string * (ConfigFlags ClientConfig -> option FlagValue))
    : option (string * string * FlagValue) :=
  let '(name, shorthand, field) := e in
  (fun d => (name, shorthand, d)) <$> field f.

Definition entryName {F : Type} (e : string * string * F) : string := fst (fst e).

(** ** A concrete environment

    Collaborators with fixed answers, over [string] errors and [unit]
    handles, used to run the definitions on concrete inputs. *)
Definition fixedCollaborators (driver : string) (clientsetErr : option string)
    (loader : option unit) (namespaceAnswer : string * bool * option string)
    : Collaborators string unit unit :=
  {| NewClientConfigFromBytes := fun _ => (loader, None);
     ClientConfig_Namespace := fun _ => namespaceAnswer;
     KubernetesClientSet := fun _ => (tt, clientsetErr);
     Getenv := fun key => if key =? "HELM_DRIVER" then driver else "";
     HomeDir := "/home/helm";
     filepath_Join := String.concat "/" |}.

(** A reachable cluster whose loader resolves the namespace "prod". *)
Definition prodCluster (driver : string) : Collaborators string unit unit :=
  fixedCollaborators driver None (Some tt) ("prod", false, None).

(** A cluster for which no client set can be built. *)
Definition unreachableCluster (driver : string) : Collaborators string unit unit :=
  fixedCollaborators driver (Some "cluster unreachable") (Some tt) ("prod", false, None).

(** A loader whose [Namespace()] reports an error next to a namespace. *)
Definition noContextCluster : Collaborators string unit unit :=
  fixedCollaborators "" None (Some tt) ("kube-system", false, Some "no context").

(** The HELM_DRIVER values the switch of [NewActionConfig] recognises. *)
Definition knownDrivers : list string :=
  ["secret"; "secrets"; ""; "configmap"; "configmaps"; "memory"].

(** The same collaborators with another client-config loader: both the
    loader construction and the namespace answer are replaced. *)
Definition with_loader {error ClientConfig Clientset : Type}
    (W : Collaborators error ClientConfig Clientset)
    (newClientConfig : list byte -> option ClientConfig * option error)
    (namespaceOf : ClientConfig -> string * bool * option error)
    : Collaborators error ClientConfig Clientset :=
  {| NewClientConfigFromBytes := newClientConfig;
     ClientConfig_Namespace := namespaceOf;
     KubernetesClientSet := KubernetesClientSet W;
     Getenv := Getenv W;
     HomeDir := HomeDir W;
     filepath_Join := filepath_Join W |}.

(** The namespace [getNamespace] makes of a loader's answer. *)
Definition namespaceOrDefault {error : Type} (answer : string * bool * option error) : string :=
  let '(ns, _, err) := answer in
  match err with
  | None => ns
  | Some _ => "default"
  end.

(** What a call may change once the guard has fired: neither [config]
    nor the guard, and no object that does not use the persistent loader. *)
Definition frame {ClientConfig : Type} (st st' : State ClientConfig) : Prop :=
  config st' = config st
  /\ configOnce st' = configOnce st
  /\ (forall p f, heap st !! p = Some f -> usePersistentConfig f = false ->
        heap st' !! p = Some f).

(** ** The remaining functions of [config_flags.go] *)

(** The result of a call, without the state or object it leaves behind. *)
Definition outcome_map {E A B : Type} (g : A -> B) (o : outcome E A) : outcome E B :=
  match o with
  | Returned a => Returned (g a)
  | Fatal e => Fatal e
  | Panicked v => Panicked v
  end.

Section RESTConfig.

Context {error ClientConfig Clientset : Type}.

(** [*rest.Config]. *)
Variable RestConfig : Type.

Variable W : Collaborators error ClientConfig Clientset.

(** [ClientConfig.ClientConfig()] of clientcmd: the REST configuration
    (nil on failure) and the error. *)
Variable ClientConfig_ClientConfig : ClientConfig -> option RestConfig * option error.

(** [ToRESTConfig]: the loader's answer, next to the record as the call
    leaves it; calling [ClientConfig()] on a nil loader panics. *)
Definition ToRESTConfig (f : ConfigFlags ClientConfig)
    : outcome error (option RestConfig * option error * ConfigFlags ClientConfig) :=
  let '(loader, f') := ToRawKubeConfigLoader W f in
  match loader with
  | Some cc => Returned (ClientConfig_ClientConfig cc, f')
  | None => Panicked NilDereference
  end.

End RESTConfig.

(** *** [computeDiscoverCacheDir] *)

(** [strings.Replace(s, old, new, 1)]: the leftmost occurrence of [old]
    is replaced, a string without one is returned as it is. *)
Fixpoint dropString (n : nat) (s : string) : string :=
  match n, s with
  | S k, String _ rest => dropString k rest
  | _, _ => s
  end.

Fixpoint replaceFirst (old new s : string) : string :=
  if String.prefix old s then new ++ dropString (String.length old) s
  else
    match s with
    | EmptyString => EmptyString
    | String c rest => String c (replaceFirst old new rest)
    end.

(** Whether [old] occurs in [s] ([strings.Contains]). *)
Fixpoint occurs (old s : string) : bool :=
  String.prefix old s
  || match s with
     | EmptyString => false
     | String _ rest => occurs old rest
     end.

(** [\w] of the regular expression syntax: ASCII letters, digits and the
    underscore. *)
Definition isWordChar (c : ascii) : bool :=
  let n := nat_of_ascii c in
  (Nat.leb 48 n && Nat.leb n 57) || (Nat.leb 65 n && Nat.leb n 90)
  || Nat.eqb n 95 || (Nat.leb 97 n && Nat.leb n 122).

(** The characters the class [[^(\w/\.)]] does not match: inside the
    brackets the parentheses stand for themselves. *)
Definition legalFileCharacter (c : ascii) : bool :=
  Ascii.eqb c "(" || isWordChar c || Ascii.eqb c "/" || Ascii.eqb c "." || Ascii.eqb c ")".

(** A string made of characters the class does not match. *)
Definition legalString (s : string) : Prop :=
  Forall (fun ch => legalFileCharacter ch = true) (list_ascii_of_string s).

Section DiscoverCacheDir.

(** The width in bytes of the rune at the head of a string whose first
    byte is not ASCII, as the regexp engine steps over it (UTF-8 decoding
    is done by the standard library). *)
Variable runeWidth : string -> nat.

(** [filepath.Join]. *)
Variable Join : list string -> string.

(** [overlyCautiousIllegalFileCharacters.ReplaceAllString(s, "_")]: every
    rune the class matches becomes one underscore. A rune outside ASCII
    is never in the class; [skip] counts the bytes of such a rune that
    are still to be passed over. *)
Fixpoint replaceIllegal (skip : nat) (s : string) : string :=
  match s with
  | EmptyString => EmptyString
  | String c rest =>
      match skip with
      | S k => replaceIllegal k rest
      | O =>
          if Nat.ltb (nat_of_ascii c) 128 then
            String (if legalFileCharacter c then c else "_"%char) (replaceIllegal 0 rest)
          else String "_"%char (replaceIllegal (runeWidth s - 1) rest)
      end
  end.

Definition schemelessHost (host : string) : string :=
  replaceFirst "http://" "" (replaceFirst "https://" "" host).

Definition safeHost (host : string) : string :=
  replaceIllegal 0 (schemelessHost host).

Definition computeDiscoverCacheDir (parentDir host : string) : string :=
  Join [parentDir; safeHost host].

End DiscoverCacheDir.

(** ** [cmd/helm/history.go]

    Release records as the command reads them. The [chart], [release],
    [releaseutil] and [action] packages are not among the sources: the
    fields the code reads are record fields, the methods it calls are
    section variables. *)

(** [chart.Metadata], [chart.Chart], [release.Info] and
    [release.Release], with the fields read here. *)
Record Metadata : Type := mkMetadata {
  md_Version : string
}.

Record Chart : Type := mkChart {
  ch_Metadata : option Metadata
}.

(** One row of the history ([releaseInfo]). *)
Record releaseInfo : Type := mkReleaseInfo {
  ri_Revision : Z;
  ri_Updated : string;
  ri_Status : string;
  ri_Chart : string;
  ri_AppVersion : string;
  ri_Description : string
}.

Definition releaseHistory : Type := list releaseInfo.

(** A cell of a [uitable] row: [AddRow] takes values of any type, here
    an [int] or a [string]. *)
Inductive Cell : Type :=
| IntCell (n : Z)
| StringCell (s : string).

Definition Table : Type := list (list Cell).

Definition AddRow (row : list Cell) (tbl : Table) : Table := tbl ++ [row].

(** [action.History], with the two fields the command sets. *)
Record History : Type := mkHistory {
  hist_Max : Z;
  hist_OutputFormat : string
}.

(** [min(x, y)]. *)
Definition min (x y : Z) : Z := if Z.ltb x y then x else y.

Section HistoryCommand.

(** Go's [error], [release.Status], [time.Time] and
    [action.OutputFormat]. *)
Variables (error Status Time OutputFormat : Type).

Record Info : Type := mkInfo {
  info_LastDeployed : Time;
  info_Description : string;
  info_Status : Status
}.

Record Release : Type := mkRelease {
  rel_Info : option Info;
  rel_Chart : option Chart;
  rel_Version : Z
}.

(** The methods and functions of the packages that are not among the
    sources. *)
Record HistoryPackages : Type := mkHistoryPackages {
  (** [Name()] and [AppVersion()] of a [chart.Chart]. *)
  Chart_Name : Chart -> string;
  Chart_AppVersion : Chart -> string;
  (** [release.Status.String()], [time.Time.IsZero()] and [.String()]. *)
  Status_String : Status -> string;
  Time_IsZero : Time -> bool;
  Time_String : Time -> string;
  (** [client.Run(name)]: the releases and the error. *)
  History_Run : History -> string -> list (option Release) * option error;
  (** [releaseutil.Reverse(hist, releaseutil.SortByRevision)]: the slice
      after the in-place sort. *)
  Reverse_SortByRevision : list (option Release) -> list (option Release);
  (** [action.ParseOutputFormat]. *)
  ParseOutputFormat : string -> OutputFormat * option error;
  (** The three formats and [action.ErrInvalidFormatType]. *)
  YAML : OutputFormat;
  JSON : OutputFormat;
  TableFormat : OutputFormat;
  ErrInvalidFormatType : error;
  (** [format.Marshal(hist)] and [format.MarshalTable(fn)]; a byte slice
      is a [string] here, and nil is the empty one. *)
  Marshal : OutputFormat -> releaseHistory -> string * option error;
  MarshalTable : OutputFormat -> (Table -> Table) -> string * option error
}.

Section Functions.

Context `{EqDecision OutputFormat}.
Variable P : HistoryPackages.

Definition formatChartname (c : option Chart) : string :=
  match c with
  | None => "MISSING"
  | Some ch =>
      match ch_Metadata ch with
      | None => "MISSING"
      | Some md => Chart_Name P ch ++ "-" ++ md_Version md
      end
  end.

Definition formatAppVersion (c : option Chart) : string :=
  match c with
  | None => "MISSING"
  | Some ch =>
      match ch_Metadata ch with
      | None => "MISSING"
      | Some _ => Chart_AppVersion P ch
      end
  end.

(** The body of the loop of [getReleaseHistory], for a release and its
    [Info]. *)
Definition releaseInfoOf (r : Release) (info : Info) : releaseInfo :=
  let c := formatChartname (rel_Chart r) in
  let s := Status_String P (info_Status info) in
  let v := rel_Version r in
  let d := info_Description info in
  let a := formatAppVersion (rel_Chart r) in
  let rInfo := mkReleaseInfo v "" s c a d in
  if negb (Time_IsZero P (info_LastDeployed info)) then
    mkReleaseInfo (ri_Revision rInfo) (Time_String P (info_LastDeployed info))
      (ri_Status rInfo) (ri_Chart rInfo) (ri_AppVersion rInfo) (ri_Description rInfo)
  else rInfo.

(** The loop itself, over the releases from the last to the first; a nil
    release or a nil [Info] is dereferenced and panics. *)
Fixpoint getReleaseHistory_from (rls : list (option Release)) (history : releaseHistory)
    : outcome error releaseHistory :=
  match rls with
  | [] => Returned history
  | None :: _ => Panicked NilDereference
  | Some r :: rest =>
      match rel_Info r with
      | None => Panicked NilDereference
      | Some info => getReleaseHistory_from rest (history ++ [releaseInfoOf r info])
      end
  end.

Definition getReleaseHistory (rls : list (option Release)) : outcome error releaseHistory :=
  getReleaseHistory_from (rev rls) [].

(** The rows the callback of [marshalHistory] adds to a table. *)
Definition historyRows (hist : releaseHistory) (tbl : Table) : Table :=
  let tbl := AddRow [StringCell "REVISION"; StringCell "UPDATED"; StringCell "STATUS";
                     StringCell "CHART"; StringCell "APP VERSION"; StringCell "DESCRIPTION"]
               tbl in
  foldl (fun tbl i =>
           match hist !! i with
           | Some r =>
               AddRow [IntCell (ri_Revision r); StringCell (ri_Updated r);
                       StringCell (ri_Status r); StringCell (ri_Chart r);
                       StringCell (ri_AppVersion r); StringCell (ri_Description r)] tbl
           | None => tbl
           end)
    tbl (seq 0 (length hist)).

Definition marshalHistory (format : OutputFormat) (hist : releaseHistory)
    : string * option error :=
  if bool_decide (format = YAML P) || bool_decide (format = JSON P) then Marshal P format hist
  else if bool_decide (format = TableFormat P) then MarshalTable P format (historyRows hist)
  else ("", Some (ErrInvalidFormatType P)).

(** The first [min(len(hist), client.Max)] releases, as the loop of
    [getHistory] collects them. *)
Definition firstReleases (hist : list (option Release)) (max : Z) : list (option Release) :=
  foldl (fun rels i =>
           match hist !! i with
           | Some r => rels ++ [r]
           | None => rels
           end)
    [] (seq 0 (Z.to_nat (min (Z.of_nat (length hist)) max))).

Definition getHistory (client : History) (name : string)
    : outcome error (string * option error) :=
  let '(hist, err) := History_Run P client name in
  match err with
  | Some e => Returned ("", Some e)
  | None =>
      let hist := Reverse_SortByRevision P hist in
      let rels := firstReleases hist (hist_Max client) in
      if Nat.eqb (length rels) 0 then Returned ("", None)
      else
        match getReleaseHistory rels with
        | Returned releaseHistory =>
            let '(outputFormat, err) := ParseOutputFormat P (hist_OutputFormat client) in
            match err with
            | Some e => Returned ("", Some e)
            | None =>
                let '(history, formattingError) := marshalHistory outputFormat releaseHistory in
                match formattingError with
                | Some e => Returned ("", Some e)
                | None => Returned (history, None)
                end
            end
        | Fatal e => Fatal e
        | Panicked v => Panicked v
        end
  end.

(** What one entry of the history has to do with the release it was
    made from. *)
Definition madeFrom (ri : releaseInfo) (o : option Release) : Prop :=
  exists r info,
    o = Some r /\ rel_Info r = Some info /\ ri = releaseInfoOf r info
    /\ ri_Revision ri = rel_Version r
    /\ ri_Chart ri = formatChartname (rel_Chart r)
    /\ ri_AppVersion ri = formatAppVersion (rel_Chart r)
    /\ ri_Description ri = info_Description info.

(** A release the loop of [getReleaseHistory] can read. *)
Definition readable (o : option Release) : Prop :=
  exists r info, o = Some r /\ rel_Info r = Some info.

(** The header row and the row of one entry. *)
Definition headerRow : list Cell :=
  [StringCell "REVISION"; StringCell "UPDATED"; StringCell "STATUS";
   StringCell "CHART"; StringCell "APP VERSION"; StringCell "DESCRIPTION"].

Definition rowOf (r : releaseInfo) : list Cell :=
  [IntCell (ri_Revision r); StringCell (ri_Updated r); StringCell (ri_Status r);
   StringCell (ri_Chart r); StringCell (ri_AppVersion r); StringCell (ri_Description r)].

End Functions.

End HistoryCommand.

Arguments mkInfo {Status Time}.
Arguments info_LastDeployed {Status Time} i.
Arguments info_Description {Status Time} i.
Arguments info_Status {Status Time} i.
Arguments mkRelease {Status Time}.
Arguments rel_Info {Status Time} r.
Arguments rel_Chart {Status Time} r.
Arguments rel_Version {Status Time} r.
Arguments mkHistoryPackages {error Status Time OutputFormat}.
Arguments Chart_Name {error Status Time OutputFormat} h.
Arguments Chart_AppVersion {error Status Time OutputFormat} h.
Arguments Status_String {error Status Time OutputFormat} h.
Arguments Time_IsZero {error Status Time OutputFormat} h.
Arguments Time_String {error Status Time OutputFormat} h.
Arguments History_Run {error Status Time OutputFormat} h.
Arguments Reverse_SortByRevision {error Status Time OutputFormat} h.
Arguments ParseOutputFormat {error Status Time OutputFormat} h.
Arguments YAML {error Status Time OutputFormat} h.
Arguments JSON {error Status Time OutputFormat} h.
Arguments TableFormat {error Status Time OutputFormat} h.
Arguments ErrInvalidFormatType {error Status Time OutputFormat} h.
Arguments Marshal {error Status Time OutputFormat} h.
Arguments MarshalTable {error Status Time OutputFormat} h.
Arguments formatChartname {error Status Time OutputFormat} P c.
Arguments formatAppVersion {error Status Time OutputFormat} P c.
Arguments releaseInfoOf {error Status Time OutputFormat} P r info.
Arguments getReleaseHistory_from {error Status Time OutputFormat} P rls history.
Arguments getReleaseHistory {error Status Time OutputFormat} P rls.
Arguments marshalHistory {error Status Time OutputFormat _} P format hist.
Arguments firstReleases {Status Time} hist max.
Arguments getHistory {error Status Time OutputFormat _} P client name.
Arguments madeFrom {error Status Time OutputFormat} P ri o.
Arguments readable {Status Time} o.


(** ** [pkg/chartutil/create.go] and the lint action kept in the same file *)

(** [strings.ReplaceAll(src, old, new)] for a non-empty [old]: the
    occurrences of [old] are replaced from left to right, without
    overlap; [skip] counts the bytes of a replaced occurrence that are
    still to be passed over. *)
Fixpoint replaceAll_from (skip : nat) (old new src : string) : string :=
  match src with
  | EmptyString => EmptyString
  | String c rest =>
      match skip with
      | S k => replaceAll_from k old new rest
      | O =>
          if String.prefix old src
          then new ++ replaceAll_from (String.length old - 1) old new rest
          else String c (replaceAll_from 0 old new rest)
      end
  end.

(** [transform]; the byte slice it returns is a [string] here. *)
Definition transform (src replacement : string) : string :=
  replaceAll_from 0 "<CHARTNAME>" replacement src.

(** [strings.HasSuffix] and [strings.LastIndex] (-1 when there is no
    occurrence). *)
Definition hasSuffix (s suffix : string) : bool :=
  Nat.leb (String.length suffix) (String.length s)
  && String.eqb (substring (String.length s - String.length suffix) (String.length suffix) s)
       suffix.

Fixpoint lastIndex_from (s sep : string) (i best : Z) : Z :=
  match s with
  | EmptyString => if String.prefix sep s then i else best
  | String _ rest =>
      lastIndex_from rest sep (i + 1) (if String.prefix sep s then i else best)
  end.

Definition lastIndex (s sep : string) : Z := lastIndex_from s sep 0 (-1).

Section LintAction.

(** Go's [error], the values map and an open [*os.File]. *)
Variables (error Values File : Type).

(** [support.Message] and [support.Linter], with the fields read here. *)
Record Message : Type := mkMessage {
  msg_Severity : Z;
  msg_Err : error
}.

Record Linter : Type := mkLinter {
  lin_Messages : list Message;
  lin_HighestSeverity : Z
}.

(** [support.Linter{}]. *)
Definition zeroLinter : Linter := mkLinter [] 0.

Record Lint : Type := mkLint {
  lint_Strict : bool;
  lint_Namespace : string
}.

Record LintResult : Type := mkLintResult {
  TotalChartsLinted : Z;
  res_Messages : list Message;
  res_Errors : list error
}.

(** [&LintResult{}]. *)
Definition zeroLintResult : LintResult := mkLintResult 0 [] [].

(** What the action takes from outside this file: the severities of the
    [support] package, the package variable [errLintNoChart], the file
    system, the archive expander, the path functions, the error of an
    archive name without a hyphen, and the linter itself. *)
Record LintPackages : Type := mkLintPackages {
  ErrorSev : Z;
  WarningSev : Z;
  errLintNoChart : error;
  ioutil_TempDir : string -> string -> string * option error;
  os_Open : string -> File * option error;
  chartutil_Expand : string -> File -> option error;
  os_Stat : string -> option error;
  filepath_Base : string -> string;
  filepath_Join2 : string -> string -> string;
  errMissingHyphen : string -> error;
  lint_All : string -> Values -> string -> bool -> Linter
}.

Section Functions.

Context `{EqDecision error}.
Variable P : LintPackages.

(** [lintChart]. The copy of [vals] is the same map; the deferred
    [os.RemoveAll] and [file.Close] act on the file system only and have
    no part in the result. An early [return] is the left injection. *)
Definition lintChart (path : string) (vals : Values) (namespace : string) (strict : bool)
    : Linter * option error :=
  let linter := zeroLinter in
  let currentVals := vals in
  let chartPath : Linter * option error + string :=
    if hasSuffix path ".tgz" then
      let '(tempDir, err) := ioutil_TempDir P "" "helm-lint" in
      match err with
      | Some e => inl (linter, Some e)
      | None =>
          let '(file, err) := os_Open P path in
          match err with
          | Some e => inl (linter, Some e)
          | None =>
              match chartutil_Expand P tempDir file with
              | Some e => inl (linter, Some e)
              | None =>
                  let lastHyphenIndex := lastIndex (filepath_Base P path) "-" in
                  if Z.leb lastHyphenIndex 0 then
                    inl (linter, Some (errMissingHyphen P (filepath_Base P path)))
                  else
                    let base := substring 0 (Z.to_nat lastHyphenIndex) (filepath_Base P path) in
                    inr (filepath_Join2 P tempDir base)
              end
          end
      end
    else inr path in
  match chartPath with
  | inl early => early
  | inr chartPath =>
      match os_Stat P (filepath_Join2 P chartPath "Chart.yaml") with
      | Some _ => (linter, Some (errLintNoChart P))
      | None => (lint_All P chartPath currentVals namespace strict, None)
      end
  end.

(** The body of the loop of [Run], for one path. *)
Definition runPath (l : Lint) (lowestTolerance : Z) (vals : Values)
    (result : LintResult) (path : string) : LintResult :=
  let '(linter, err) := lintChart path vals (lint_Namespace l) (lint_Strict l) in
  match err with
  | Some e =>
      let result :=
        if bool_decide (e = errLintNoChart P)
        then mkLintResult (TotalChartsLinted result) (res_Messages result)
               (res_Errors result ++ [e])
        else result in
      if Z.leb lowestTolerance (lin_HighestSeverity linter)
      then mkLintResult (TotalChartsLinted result) (res_Messages result)
             (res_Errors result ++ [e])
      else result
  | None =>
      let result :=
        mkLintResult (TotalChartsLinted result + 1)
          (res_Messages result ++ lin_Messages linter) (res_Errors result) in
      foldl (fun result msg =>
               if Z.eqb (msg_Severity msg) (ErrorSev P)
               then mkLintResult (TotalChartsLinted result) (res_Messages result)
                      (res_Errors result ++ [msg_Err msg])
               else result)
        result (lin_Messages linter)
  end.

Definition Run (l : Lint) (paths : list string) (vals : Values) : LintResult :=
  let lowestTolerance := if lint_Strict l then WarningSev P else ErrorSev P in
  foldl (runPath l lowestTolerance vals) zeroLintResult paths.

(** What one path adds to the result, as [Run] is compared with below:
    the charts linted, the messages and the errors. *)
Definition combine (r1 r2 : LintResult) : LintResult :=
  mkLintResult (TotalChartsLinted r1 + TotalChartsLinted r2)
    (res_Messages r1 ++ res_Messages r2) (res_Errors r1 ++ res_Errors r2).

End Functions.

End LintAction.

Arguments mkMessage {error}.
Arguments msg_Severity {error} m.
Arguments msg_Err {error} m.
Arguments mkLinter {error}.
Arguments lin_Messages {error} l.
Arguments lin_HighestSeverity {error} l.
Arguments zeroLinter {error}.
Arguments mkLintResult {error}.
Arguments TotalChartsLinted {error} l.
Arguments res_Messages {error} l.
Arguments res_Errors {error} l.
Arguments zeroLintResult {error}.
Arguments mkLintPackages {error Values File}.
Arguments ErrorSev {error Values File} l.
Arguments WarningSev {error Values File} l.
Arguments errLintNoChart {error Values File} l.
Arguments ioutil_TempDir {error Values File} l.
Arguments os_Open {error Values File} l.
Arguments chartutil_Expand {error Values File} l.
Arguments os_Stat {error Values File} l.
Arguments filepath_Base {error Values File} l.
Arguments filepath_Join2 {error Values File} l.
Arguments errMissingHyphen {error Values File} l.
Arguments lint_All {error Values File} l.
Arguments lintChart {error Values File} P path vals namespace strict.
Arguments runPath {error Values File _} P l lowestTolerance vals result path.
Arguments Run {error Values File _} P l paths vals.
Arguments combine {error} r1 r2.

(** ** Concrete environments for the functions above *)

(** Collaborators whose loader construction fails: the loader is nil. *)
Definition nilLoaderCluster : Collaborators string unit unit :=
  fixedCollaborators "" None None ("", false, None).

(** A REST configuration answer: the host of the empty kubeconfig. *)
Definition localhostRestConfig (cc : unit) : option string * option string :=
  (Some "localhost:8080", None).

(** A history client's packages: statuses are their own strings, a time
    is its text or nothing for the zero time, the stored releases are
    given in rising revision order, for which the falling sort is the
    reversal, and the marshaller joins the chart columns. *)
Definition storedHistory (releases : list (option (Release string (option string))))
    : HistoryPackages string string (option string) string :=
  {| Chart_Name := fun _ => "alpine";
     Chart_AppVersion := fun _ => "1.0";
     Status_String := fun st => st;
     Time_IsZero := fun t => match t with None => true | Some _ => false end;
     Time_String := fun t => match t with None => "" | Some text => text end;
     History_Run := fun _ _ => (releases, None);
     Reverse_SortByRevision := @rev _;
     ParseOutputFormat := fun text =>
       if (text =? "table") || (text =? "json") || (text =? "yaml") then (text, None)
       else ("", Some "invalid format type");
     YAML := "yaml";
     JSON := "json";
     TableFormat := "table";
     ErrInvalidFormatType := "invalid format type";
     Marshal := fun _ hist => (String.concat "," (map ri_Chart hist), None);
     MarshalTable := fun _ rows => (String.concat "," (map (fun _ => "row") (rows [])), None) |}.

(** A release of the chart alpine-0.1.0 with a given revision. *)
Definition alpineRelease (revision : Z) : Release string (option string) :=
  mkRelease (Some (mkInfo (Some "Mon Oct 3 10:15:13 2016") "Upgraded successfully" "deployed"))
    (Some (mkChart (Some (mkMetadata "0.1.0")))) revision.

(** A file system with one chart directory, "good", and one archive that
    cannot be opened; every linted chart gets one error and one note. *)
Definition oneGoodChart : LintPackages string unit unit :=
  {| ErrorSev := 3;
     WarningSev := 2;
     errLintNoChart := "no chart found for linting (missing Chart.yaml)";
     ioutil_TempDir := fun _ _ => ("/tmp/helm-lint", None);
     os_Open := fun path => (tt, if path =? "broken-1.0.tgz" then Some "open failed" else None);
     chartutil_Expand := fun _ _ => None;
     os_Stat := fun path => if path =? "good/Chart.yaml" then None else Some "no such file";
     filepath_Base := fun path => path;
     filepath_Join2 := fun dir name => (dir ++ "/" ++ name)%string;
     errMissingHyphen := fun base => ("unable to parse chart archive " ++ base)%string;
     lint_All := fun _ _ _ _ =>
       mkLinter [mkMessage 3 "icon is recommended"; mkMessage 1 "note"] 3 |}.

(** * Properties *)

Section Properties.

Context {error ClientConfig Clientset DiscoveryClient : Type}.
Variable W : Collaborators error ClientConfig Clientset.

Implicit Types (f : ConfigFlags ClientConfig) (st : State ClientConfig).
Implicit Types (c credentialContent : list byte).

(** ** Discovery *)

(** C10: [ToDiscoveryClient] returns a nil client and a nil error for
    every record, so [ToRESTMapper] never returns an error and its mapper,
    the shortcut expander and the deferred mapper under it, is built over
    the nil discovery client. *)
Theorem ToDiscoveryClient_nil_and_ToRESTMapper_total f :
  ToDiscoveryClient (error := error) (DiscoveryClient := DiscoveryClient) f = (None, None)
  /\ ToRESTMapper (error := error) (DiscoveryClient := DiscoveryClient) f
     = (Some (NewShortcutExpander (NewDeferredDiscoveryRESTMapper None) None), None)
  /\ snd (ToRESTMapper (error := error) (DiscoveryClient := DiscoveryClient) f) = None
  /\ (forall m, fst (ToRESTMapper (error := error) (DiscoveryClient := DiscoveryClient) f) = Some m ->
        mapper_client m = None).
Proof.
  repeat split.
  intros m Hm. cbn in Hm. inversion Hm. reflexivity.
Qed.

(** ** Defaults *)

Lemma alloc_lookup f st :
  heap (snd (alloc f st)) !! fst (alloc f st) = Some f.
Proof.
  unfold alloc; cbn. rewrite lookup_app_r by lia.
  now rewrite Nat.sub_diag.
Qed.

Lemma alloc_preserves f st i g :
  heap st !! i = Some g -> heap (snd (alloc f st)) !! i = Some g.
Proof.
  intros H. unfold alloc; cbn. now apply lookup_app_l_Some.
Qed.

(** C9, as the code has it: the object [NewConfigFlags] allocates has
    [Insecure] false, [Timeout] "0", [CacheDir] the join of the home
    directory with ".kube" and "http-cache", the eleven other string
    overrides it lists set to the empty string and [ImpersonateGroup] set
    to the empty list, while [Username] and [Password] stay nil. *)
Theorem NewConfigFlags_defaults usePersistent c st :
  exists f,
    heap (snd (NewConfigFlags W usePersistent c st))
      !! fst (NewConfigFlags W usePersistent c st) = Some f
    /\ Insecure f = Some false
    /\ Timeout f = Some "0"
    /\ CacheDir f = Some (filepath_Join W [HomeDir W; ".kube"; "http-cache"])
    /\ Forall (fun field => field f = Some "")
         [KubeConfig; ClusterName; AuthInfoName; Context; Namespace; APIServer;
          CertFile; KeyFile; CAFile; BearerToken; Impersonate]
    /\ ImpersonateGroup f = Some []
    /\ Username f = None
    /\ Password f = None
    /\ clientConfig f = None
    /\ usePersistentConfig f = usePersistent
    /\ CredentialContent f = c.
Proof.
  exists (defaultConfigFlags W usePersistent c).
  split; [apply alloc_lookup|].
  repeat split. repeat constructor.
Qed.

(** ** Loaders *)

Lemma set_heap_same st : set_heap ClientConfig (heap st) st = st.
Proof. now destruct st. Qed.

Lemma ToRawKubeConfigLoader_fresh f :
  usePersistentConfig f = false ->
  ToRawKubeConfigLoader W f = (fst (NewClientConfigFromBytes W []), f).
Proof.
  intros H. unfold ToRawKubeConfigLoader, toRawKubeConfigLoader. rewrite H.
  now destruct (NewClientConfigFromBytes W []).
Qed.

Lemma call_ToRawKubeConfigLoader_fresh p f st :
  heap st !! p = Some f ->
  usePersistentConfig f = false ->
  getter_ToRawKubeConfigLoader W (Some p) st
  = Returned (fst (NewClientConfigFromBytes W []), st).
Proof.
  intros Hp Hf. unfold getter_ToRawKubeConfigLoader, call. rewrite Hp, (ToRawKubeConfigLoader_fresh _ Hf).
  rewrite list_insert_id by exact Hp. now rewrite set_heap_same.
Qed.

(** C3: with [usePersistentConfig] false, [ToRawKubeConfigLoader] returns
    the loader built from empty bytes and leaves the record as it was
    (nothing is cached, also when called through a pointer); the loader is
    the one any other such record yields, in particular the zero record
    and the defaults with empty credentials. *)
Theorem ToRawKubeConfigLoader_non_persistent f :
  usePersistentConfig f = false ->
  ToRawKubeConfigLoader W f = (fst (NewClientConfigFromBytes W []), f)
  /\ (forall p st, heap st !! p = Some f ->
        getter_ToRawKubeConfigLoader W (Some p) st
        = Returned (fst (NewClientConfigFromBytes W []), st))
  /\ (forall f', usePersistentConfig f' = false ->
        fst (ToRawKubeConfigLoader W f) = fst (ToRawKubeConfigLoader W f'))
  /\ fst (ToRawKubeConfigLoader W f) = fst (ToRawKubeConfigLoader W zeroConfigFlags)
  /\ fst (ToRawKubeConfigLoader W f)
     = fst (ToRawKubeConfigLoader W (defaultConfigFlags W false [])).
Proof.
  intros Hf. split; [now apply ToRawKubeConfigLoader_fresh|].
  split; [intros p st Hp; now apply call_ToRawKubeConfigLoader_fresh with f|].
  split.
  - intros f' Hf'. now rewrite !ToRawKubeConfigLoader_fresh.
  - now rewrite !ToRawKubeConfigLoader_fresh.
Qed.

(** The persistent path, for contrast: it builds the loader when none is
    stored, stores it, and from then on returns the stored one. *)
Lemma ToRawKubeConfigLoader_persistent_builds f :
  usePersistentConfig f = true ->
  clientConfig f = None ->
  ToRawKubeConfigLoader W f
  = (fst (NewClientConfigFromBytes W []),
     set_clientConfig (fst (NewClientConfigFromBytes W [])) f).
Proof.
  intros Hp Hc.
  unfold ToRawKubeConfigLoader, toRawKubePersistentConfigLoader, toRawKubeConfigLoader.
  rewrite Hp, Hc. now destruct (NewClientConfigFromBytes W []).
Qed.

Lemma ToRawKubeConfigLoader_persistent_cached f cc :
  usePersistentConfig f = true ->
  clientConfig f = Some cc ->
  ToRawKubeConfigLoader W f = (Some cc, f).
Proof.
  intros Hp Hc. unfold ToRawKubeConfigLoader, toRawKubePersistentConfigLoader.
  rewrite Hp, Hc. cbv zeta. now rewrite Hc.
Qed.

(** ** The process-wide getter *)

Lemma kubeConfig_fired c st :
  configOnce st = true -> kubeConfig W c st = (config st, st).
Proof.
  intros H. unfold kubeConfig, configOnce_Do. now rewrite H.
Qed.

Lemma kubeConfig_first c st :
  configOnce st = false ->
  kubeConfig W c st
  = (Some (length (heap st)),
     mkState (heap st ++ [defaultConfigFlags W false c]) (Some (length (heap st))) true).
Proof.
  intros H. unfold kubeConfig, configOnce_Do. now rewrite H.
Qed.

Lemma kubeConfig_sets_guard c st :
  configOnce (snd (kubeConfig W c st)) = true
  /\ config (snd (kubeConfig W c st)) = fst (kubeConfig W c st).
Proof.
  destruct (configOnce st) eqn:H.
  - now rewrite (kubeConfig_fired _ _ H).
  - now rewrite (kubeConfig_first _ _ H).
Qed.

Lemma kubeConfig_again c c' st :
  kubeConfig W c' (snd (kubeConfig W c st))
  = (fst (kubeConfig W c st), snd (kubeConfig W c st)).
Proof.
  destruct (kubeConfig_sets_guard c st) as [Hg Hc].
  now rewrite (kubeConfig_fired _ _ Hg), Hc.
Qed.

Lemma kubeConfig_consistent c st :
  consistent st = true -> consistent (snd (kubeConfig W c st)) = true.
Proof.
  intros H. destruct (configOnce st) eqn:Ho.
  - now rewrite (kubeConfig_fired _ _ Ho).
  - rewrite (kubeConfig_first _ _ Ho). unfold consistent; cbn.
    rewrite lookup_app_r by lia. now rewrite Nat.sub_diag.
Qed.

(** In a consistent state the getter is a live, non-persistent object. *)
Lemma kubeConfig_getter c st :
  consistent st = true ->
  exists p f,
    fst (kubeConfig W c st) = Some p
    /\ heap (snd (kubeConfig W c st)) !! p = Some f
    /\ usePersistentConfig f = false.
Proof.
  intros H. pose proof (kubeConfig_consistent c _ H) as Hc.
  destruct (kubeConfig_sets_guard c st) as [Hg Hcfg].
  unfold consistent in Hc. rewrite Hg, Hcfg in Hc.
  destruct (fst (kubeConfig W c st)) as [p|]; [|discriminate].
  destruct (heap (snd (kubeConfig W c st)) !! p) as [f|] eqn:Hp; [|discriminate].
  exists p, f. repeat split; [exact Hp|]. now apply negb_true_iff.
Qed.

(** ** Namespace resolution *)

Lemma getNamespace_unfold c st :
  getNamespace W c st
  = match getter_ToRawKubeConfigLoader W (fst (kubeConfig W c st)) (snd (kubeConfig W c st)) with
    | Returned (Some cc, st') => Returned (namespaceOrDefault (ClientConfig_Namespace W cc), st')
    | Returned (None, _) => Panicked NilDereference
    | Fatal e => Fatal e
    | Panicked v => Panicked v
    end.
Proof.
  unfold getNamespace, bind, lift.
  destruct (kubeConfig W c st) as [g st1]; cbn [fst snd].
  destruct (getter_ToRawKubeConfigLoader W g st1) as [[[cc|] st2]| |]; try reflexivity.
  unfold namespaceOrDefault.
  destruct (ClientConfig_Namespace W cc) as [[ns b] [e|]]; reflexivity.
Qed.

(** C4: when the loader's [Namespace()] call returns [(ns, _, err)],
    [getNamespace] returns "default" if [err] is non-nil, whatever the
    error value, and [ns] otherwise; it returns a plain string, so the
    error never reaches the caller. *)
Theorem getNamespace_default_on_error c st cc ns overridden err :
  consistent st = true ->
  fst (NewClientConfigFromBytes W []) = Some cc ->
  ClientConfig_Namespace W cc = (ns, overridden, err) ->
  getNamespace W c st
  = Returned (match err with Some _ => "default" | None => ns end,
              snd (kubeConfig W c st)).
Proof.
  intros Hst Hcc Hns. rewrite getNamespace_unfold.
  destruct (kubeConfig_getter c _ Hst) as (p & f & Hg & Hp & Hf).
  rewrite Hg, (call_ToRawKubeConfigLoader_fresh _ _ _ Hp Hf), Hcc, Hns.
  reflexivity.
Qed.

(** ** Building the action configuration *)

Lemma newStore_unknown cs ns st :
  ~ In (Getenv W "HELM_DRIVER") knownDrivers ->
  newStore W cs ns st
  = Panicked (PanicString ("Unknown driver in HELM_DRIVER: " ++ Getenv W "HELM_DRIVER")).
Proof.
  intros H. unfold newStore, knownDrivers in *.
  set (d := Getenv W "HELM_DRIVER") in *.
  assert (Hne : forall s, In s ["secret"; "secrets"; ""; "configmap"; "configmaps"; "memory"] ->
                          (d =? s) = false).
  { intros s Hs. apply String.eqb_neq. intros ->. now apply H. }
  rewrite !Hne by (cbn; tauto). reflexivity.
Qed.

Lemma NewActionConfig_unfold a c st :
  NewActionConfig W a c st
  = match KubernetesClientSet W (kube_New (fst (kubeConfig W c st))) with
    | (_, Some e) => Fatal e
    | (cs, None) =>
        match workingNamespace W a c (snd (kubeConfig W c st)) with
        | Returned (ns, st2) =>
            match newStore W cs ns st2 with
            | Returned (store, st3) =>
                Returned ({| cfg_RESTClientGetter := fst (kubeConfig W c st3);
                             cfg_KubeClient := kube_New (fst (kubeConfig W c st));
                             cfg_Releases := store;
                             cfg_Log := None |},
                          snd (kubeConfig W c st3))
            | Fatal e => Fatal e
            | Panicked v => Panicked v
            end
        | Fatal e => Fatal e
        | Panicked v => Panicked v
        end
    end.
Proof.
  unfold NewActionConfig, bind at 1, lift at 1.
  destruct (kubeConfig W c st) as [g st1]; cbn [fst snd].
  destruct (KubernetesClientSet W (kube_New g)) as [cs [e|]]; [reflexivity|].
  unfold bind, lift, ret.
  destruct (workingNamespace W a c st1) as [[ns st2]| |]; reflexivity.
Qed.

(** C1: when HELM_DRIVER holds none of the six recognised values,
    [NewActionConfig] returns no configuration, whatever its arguments
    and the state: the call ends in [log.Fatal] or in a panic, and once
    the client set and the working namespace are obtained it is the panic
    naming the unknown driver. *)
Theorem NewActionConfig_unknown_driver a c st :
  ~ In (Getenv W "HELM_DRIVER") knownDrivers ->
  returns (NewActionConfig W a c st) = false
  /\ (forall cfg st', NewActionConfig W a c st <> Returned (cfg, st'))
  /\ (forall cs ns st2,
        KubernetesClientSet W (kube_New (fst (kubeConfig W c st))) = (cs, None) ->
        workingNamespace W a c (snd (kubeConfig W c st)) = Returned (ns, st2) ->
        NewActionConfig W a c st
        = Panicked (PanicString ("Unknown driver in HELM_DRIVER: " ++ Getenv W "HELM_DRIVER"))).
Proof.
  intros H.
  assert (Hr : returns (NewActionConfig W a c st) = false).
  { rewrite NewActionConfig_unfold.
    destruct (KubernetesClientSet W _) as [cs [e|]]; [reflexivity|].
    destruct (workingNamespace W a c _) as [[ns st2]| |]; try reflexivity.
    now rewrite (newStore_unknown cs ns st2 H). }
  split; [exact Hr|]. split.
  - intros cfg st' Heq. rewrite Heq in Hr. discriminate.
  - intros cs ns st2 Hcs Hns. rewrite NewActionConfig_unfold, Hcs, Hns.
    now rewrite (newStore_unknown cs ns st2 H).
Qed.

Lemma newStore_secrets cs ns st :
  In (Getenv W "HELM_DRIVER") ["secret"; "secrets"; ""] ->
  newStore W cs ns st = Returned (storage_Init (NewSecrets (Secrets (CoreV1 cs) ns)), st).
Proof.
  intros H. unfold newStore.
  destruct H as [<- | [<- | [<- | []]]]; reflexivity.
Qed.

Lemma newStore_memory cs ns st :
  Getenv W "HELM_DRIVER" = "memory" ->
  newStore W cs ns st = Returned (storage_Init NewMemory, st).
Proof.
  intros H. unfold newStore. now rewrite H.
Qed.

(** Whatever the driver, a store that [newStore] returns is one of the
    three, and the first two are scoped to the namespace given. *)
Lemma newStore_cases cs ns st store st' :
  newStore W cs ns st = Returned (store, st') ->
  st' = st
  /\ (store = storage_Init (NewSecrets (Secrets (CoreV1 cs) ns))
      \/ store = storage_Init (NewConfigMaps (ConfigMaps (CoreV1 cs) ns))
      \/ store = storage_Init NewMemory).
Proof.
  unfold newStore, ret, panic.
  repeat match goal with |- context [if ?b then _ else _] => destruct b end;
    intros H; inversion H; auto.
Qed.

Lemma workingNamespace_all c st :
  workingNamespace W true c st = Returned ("", st).
Proof. reflexivity. Qed.

Lemma workingNamespace_one c st :
  workingNamespace W false c st = getNamespace W c st.
Proof. reflexivity. Qed.

(** C5, as the code has it: with HELM_DRIVER empty, "secret" or
    "secrets", once the client set is built and the working namespace
    obtained, [NewActionConfig] returns a configuration whose [Releases]
    is the Secrets-backed store scoped to that namespace, which is empty
    under [allNamespaces] and the resolved namespace otherwise. *)
Theorem NewActionConfig_secrets a c st cs ns st2 :
  In (Getenv W "HELM_DRIVER") ["secret"; "secrets"; ""] ->
  KubernetesClientSet W (kube_New (fst (kubeConfig W c st))) = (cs, None) ->
  workingNamespace W a c (snd (kubeConfig W c st)) = Returned (ns, st2) ->
  NewActionConfig W a c st
  = Returned ({| cfg_RESTClientGetter := fst (kubeConfig W c st2);
                 cfg_KubeClient := kube_New (fst (kubeConfig W c st));
                 cfg_Releases := storage_Init (NewSecrets (Secrets (CoreV1 cs) ns));
                 cfg_Log := None |},
              snd (kubeConfig W c st2))
  /\ (a = true -> ns = "")
  /\ (a = false -> getNamespace W c (snd (kubeConfig W c st)) = Returned (ns, st2)).
Proof.
  intros Hd Hcs Hns. split; [|split].
  - now rewrite NewActionConfig_unfold, Hcs, Hns, (newStore_secrets _ _ _ Hd).
  - intros ->. rewrite workingNamespace_all in Hns. now inversion Hns.
  - intros ->. now rewrite workingNamespace_one in Hns.
Qed.

(** C6, as the code has it: with HELM_DRIVER "memory", once the client
    set is built and the working namespace obtained, [NewActionConfig]
    returns a configuration whose [Releases] is the in-memory store; the
    driver is built from no namespace, so the store is the same whatever
    the working namespace is. *)
Theorem NewActionConfig_memory a c st cs ns st2 :
  Getenv W "HELM_DRIVER" = "memory" ->
  KubernetesClientSet W (kube_New (fst (kubeConfig W c st))) = (cs, None) ->
  workingNamespace W a c (snd (kubeConfig W c st)) = Returned (ns, st2) ->
  NewActionConfig W a c st
  = Returned ({| cfg_RESTClientGetter := fst (kubeConfig W c st2);
                 cfg_KubeClient := kube_New (fst (kubeConfig W c st));
                 cfg_Releases := storage_Init NewMemory;
                 cfg_Log := None |},
              snd (kubeConfig W c st2))
  /\ storage_namespace (storage_Init (@NewMemory Clientset)) = None
  /\ (forall ns' st', newStore W cs ns' st' = Returned (storage_Init NewMemory, st')).
Proof.
  intros Hd Hcs Hns. split; [|split].
  - now rewrite NewActionConfig_unfold, Hcs, Hns, (newStore_memory _ _ _ Hd).
  - reflexivity.
  - intros ns' st'. now apply newStore_memory.
Qed.

(** C7: with [allNamespaces] true the working namespace is the empty
    string in every state, the result of [NewActionConfig] is the same
    whatever loader and namespace answer the collaborators would give,
    and a configuration it returns holds the store that [newStore] builds
    for the empty namespace: a Secrets or ConfigMaps store scoped to "",
    or the in-memory store. *)
Theorem NewActionConfig_allNamespaces c st :
  workingNamespace W true c st = Returned ("", st)
  /\ (forall newClientConfig namespaceOf,
        NewActionConfig (with_loader W newClientConfig namespaceOf) true c st
        = NewActionConfig W true c st)
  /\ (forall cfg st',
        NewActionConfig W true c st = Returned (cfg, st') ->
        exists cs,
          KubernetesClientSet W (kube_New (fst (kubeConfig W c st))) = (cs, None)
          /\ newStore W cs "" (snd (kubeConfig W c st))
             = Returned (cfg_Releases cfg, snd (kubeConfig W c st))
          /\ (storage_namespace (cfg_Releases cfg) = Some ""
              \/ cfg_Releases cfg = storage_Init NewMemory)).
Proof.
  split; [reflexivity|]. split; [reflexivity|].
  intros cfg st' H. rewrite NewActionConfig_unfold in H.
  destruct (KubernetesClientSet W _) as [cs [e|]] eqn:Hcs; [discriminate|].
  rewrite workingNamespace_all in H.
  destruct (newStore W cs "" _) as [[store st3]| |] eqn:Hs; try discriminate.
  destruct (newStore_cases _ _ _ _ _ Hs) as [-> Hstore].
  injection H as Hcfg _. rewrite <- Hcfg. cbn [cfg_Releases].
  exists cs. split; [reflexivity|]. split; [exact Hs|].
  destruct Hstore as [-> | [-> | ->]]; auto.
Qed.

(** ** The one-time initialisation *)

Lemma frame_refl st : frame st st.
Proof. repeat split; auto. Qed.

Lemma frame_trans st1 st2 st3 : frame st1 st2 -> frame st2 st3 -> frame st1 st3.
Proof.
  intros (Hc & Ho & Hh) (Hc' & Ho' & Hh'). repeat split.
  - now rewrite Hc'. 
  - now rewrite Ho'.
  - intros p f Hp Hf. apply Hh'; auto.
Qed.

Lemma alloc_frame f st : frame st (snd (alloc f st)).
Proof.
  repeat split. intros p g Hp _. now apply alloc_preserves.
Qed.

Lemma getter_ToRawKubeConfigLoader_frame g st loader st' :
  getter_ToRawKubeConfigLoader W g st = Returned (loader, st') -> frame st st'.
Proof.
  destruct g as [p|]; [|discriminate]. unfold getter_ToRawKubeConfigLoader, call.
  destruct (heap st !! p) as [f|] eqn:Hp; [|discriminate].
  destruct (ToRawKubeConfigLoader W f) as [r f'] eqn:Hm.
  intros H; injection H as _ <-. repeat split. cbn.
  intros q fq Hq Hfq. destruct (decide (q = p)) as [Heq|Hne].
  - subst q.
    assert (Hff : Some f = Some fq) by exact (eq_trans (eq_sym Hp) Hq).
    injection Hff as ->.
    rewrite (ToRawKubeConfigLoader_fresh _ Hfq) in Hm. injection Hm as _ <-.
    rewrite list_insert_id by exact Hp. exact Hp.
  - now rewrite list_lookup_insert_ne.
Qed.

Lemma getNamespace_frame c st ns st' :
  configOnce st = true ->
  getNamespace W c st = Returned (ns, st') -> frame st st'.
Proof.
  intros Ho. rewrite getNamespace_unfold, (kubeConfig_fired _ _ Ho); cbn [fst snd].
  destruct (getter_ToRawKubeConfigLoader W (config st) st) as [[[cc|] st2]| |] eqn:Hl;
    try discriminate.
  intros H; injection H as _ <-. eapply getter_ToRawKubeConfigLoader_frame, Hl.
Qed.

Lemma NewActionConfig_frame a c st cfg st' :
  configOnce st = true ->
  NewActionConfig W a c st = Returned (cfg, st') -> frame st st'.
Proof.
  intros Ho. rewrite NewActionConfig_unfold, (kubeConfig_fired _ _ Ho); cbn [fst snd].
  destruct (KubernetesClientSet W _) as [cs [e|]]; [discriminate|].
  destruct (workingNamespace W a c st) as [[ns st2]| |] eqn:Hns; try discriminate.
  assert (Hf : frame st st2).
  { destruct a.
    - rewrite workingNamespace_all in Hns. injection Hns as _ <-. apply frame_refl.
    - rewrite workingNamespace_one in Hns. eapply getNamespace_frame; eauto. }
  destruct (newStore W cs ns st2) as [[store st3]| |] eqn:Hs; try discriminate.
  destruct (newStore_cases _ _ _ _ _ Hs) as [-> _].
  assert (Ho2 : configOnce st2 = true) by (destruct Hf as (_ & -> & _); exact Ho).
  rewrite (kubeConfig_fired _ _ Ho2); cbn [fst snd].
  intros H; injection H as _ <-. exact Hf.
Qed.

Lemma step_frame st st' :
  configOnce st = true -> step W st st' -> frame st st'.
Proof.
  intros Ho Hstep. destruct Hstep as [c st|c st ns st' H|a c st cfg st' H|b c st|p st l st' H].
  - rewrite (kubeConfig_fired _ _ Ho). apply frame_refl.
  - eapply getNamespace_frame; eauto.
  - eapply NewActionConfig_frame; eauto.
  - apply alloc_frame.
  - apply (getter_ToRawKubeConfigLoader_frame (Some p) _ _ _ H).
Qed.

Lemma steps_frame st st' :
  configOnce st = true -> rtc (step W) st st' -> frame st st'.
Proof.
  intros Ho Hsteps. induction Hsteps as [st|st st1 st2 H1 _ IH].
  - apply frame_refl.
  - pose proof (step_frame _ _ Ho H1) as Hf.
    apply frame_trans with st1; [exact Hf|]. apply IH.
    destruct Hf as (_ & -> & _). exact Ho.
Qed.

Lemma frame_consistent st st' :
  configOnce st = true -> consistent st = true -> frame st st' -> consistent st' = true.
Proof.
  intros Ho Hc (Hcfg & Hg & Hh). unfold consistent in *.
  rewrite Hg, Hcfg, Ho. rewrite Ho in Hc.
  destruct (config st) as [p|]; [|discriminate].
  destruct (heap st !! p) as [f|] eqn:Hp; [|discriminate].
  apply negb_true_iff in Hc. now rewrite (Hh p f Hp Hc), Hc.
Qed.

Lemma getNamespace_after_kubeConfig c st :
  getNamespace W c (snd (kubeConfig W c st)) = getNamespace W c st.
Proof.
  now rewrite !getNamespace_unfold, kubeConfig_again.
Qed.

Lemma NewActionConfig_after_kubeConfig a c st :
  NewActionConfig W a c (snd (kubeConfig W c st)) = NewActionConfig W a c st.
Proof.
  now rewrite !NewActionConfig_unfold, kubeConfig_again.
Qed.

(** [consistent] is an invariant: it holds at process start and every
    call of the package keeps it. *)
Lemma initialState_consistent : consistent (@initialState ClientConfig) = true.
Proof. reflexivity. Qed.

Lemma step_consistent st st' :
  consistent st = true -> step W st st' -> consistent st' = true.
Proof.
  intros Hc Hstep. destruct (configOnce st) eqn:Ho.
  - exact (frame_consistent _ _ Ho Hc (step_frame _ _ Ho Hstep)).
  - destruct Hstep as [c st|c st ns st' H|a c st cfg st' H|b c st|p st l st' H].
    + now apply kubeConfig_consistent.
    + rewrite <- getNamespace_after_kubeConfig in H.
      destruct (kubeConfig_sets_guard c st) as [Hg _].
      eapply frame_consistent;
        [exact Hg|now apply kubeConfig_consistent|eapply getNamespace_frame; eauto].
    + rewrite <- NewActionConfig_after_kubeConfig in H.
      destruct (kubeConfig_sets_guard c st) as [Hg _].
      eapply frame_consistent;
        [exact Hg|now apply kubeConfig_consistent|eapply NewActionConfig_frame; eauto].
    + unfold consistent; cbn. now rewrite Ho.
    + destruct (getter_ToRawKubeConfigLoader_frame (Some p) _ _ _ H) as (_ & Hg & _).
      unfold consistent. now rewrite Hg, Ho.
Qed.

Lemma steps_consistent st st' :
  consistent st = true -> rtc (step W) st st' -> consistent st' = true.
Proof.
  intros Hc Hsteps. induction Hsteps as [st|st st1 st2 H1 _ IH]; [exact Hc|].
  apply IH. now apply step_consistent with st.
Qed.

(** C2: a call of [kubeConfig] in a state where the guard has not fired
    allocates one object, built from that call's credentials, and makes it
    the getter. After any first call and any sequence of later calls of
    the package's functions, [kubeConfig] returns the getter of the first
    call and leaves the state untouched, whatever credentials it is given,
    and the object it points to is still the one built first. A first
    call made through [getNamespace] or [NewActionConfig] leaves a state
    of that kind. *)
Theorem kubeConfig_initialized_once c0 st0 :
  (configOnce st0 = false ->
     fst (kubeConfig W c0 st0) = Some (length (heap st0))
     /\ length (heap (snd (kubeConfig W c0 st0))) = S (length (heap st0))
     /\ heap (snd (kubeConfig W c0 st0)) !! length (heap st0)
        = Some (defaultConfigFlags W false c0))
  /\ (forall st, rtc (step W) (snd (kubeConfig W c0 st0)) st ->
        (forall c, kubeConfig W c st = (fst (kubeConfig W c0 st0), st))
        /\ (configOnce st0 = false ->
              heap st !! length (heap st0) = Some (defaultConfigFlags W false c0)))
  /\ (forall ns st', getNamespace W c0 st0 = Returned (ns, st') ->
        rtc (step W) (snd (kubeConfig W c0 st0)) st')
  /\ (forall a cfg st', NewActionConfig W a c0 st0 = Returned (cfg, st') ->
        rtc (step W) (snd (kubeConfig W c0 st0)) st').
Proof.
  destruct (kubeConfig_sets_guard c0 st0) as [Hg Hc].
  assert (Hfirst : configOnce st0 = false ->
            fst (kubeConfig W c0 st0) = Some (length (heap st0))
            /\ length (heap (snd (kubeConfig W c0 st0))) = S (length (heap st0))
            /\ heap (snd (kubeConfig W c0 st0)) !! length (heap st0)
               = Some (defaultConfigFlags W false c0)).
  { intros H0. rewrite (kubeConfig_first _ _ H0). cbn [fst snd heap].
    split; [reflexivity|]. split; [rewrite length_app; cbn; lia|].
    rewrite lookup_app_r by lia. now rewrite Nat.sub_diag. }
  split; [exact Hfirst|]. split; [|split].
  - intros st Hsteps.
    destruct (steps_frame _ _ Hg Hsteps) as (Hc' & Ho' & Hh). split.
    + intros c. rewrite kubeConfig_fired by now rewrite Ho'.
      now rewrite Hc', Hc.
    + intros H0. apply Hh; [now apply Hfirst|reflexivity].
  - intros ns st' H. rewrite <- getNamespace_after_kubeConfig in H.
    eapply rtc_once, step_getNamespace, H.
  - intros a cfg st' H. rewrite <- NewActionConfig_after_kubeConfig in H.
    eapply rtc_once, step_NewActionConfig, H.
Qed.

(** ** Flag binding *)

Lemma bindString_optFlag (field : option string) name usage flags :
  bindString field name usage flags
  = flags ++ optFlag name "" usage (StringValue <$> field).
Proof.
  destruct field; cbn; [reflexivity|]. now rewrite app_nil_r.
Qed.

Lemma bindStringP_optFlag (field : option string) name shorthand usage flags :
  bindStringP field name shorthand usage flags
  = flags ++ optFlag name shorthand usage (StringValue <$> field).
Proof.
  destruct field; cbn; [reflexivity|]. now rewrite app_nil_r.
Qed.

Lemma flagKey_optFlag name shorthand usage v :
  map flagKey (optFlag name shorthand usage v)
  = option_list ((fun d => (name, shorthand, d)) <$> v).
Proof. now destruct v. Qed.

Lemma omap_cons_app {A B} (g : A -> option B) x l :
  omap g (x :: l) = option_list (g x) ++ omap g l.
Proof. cbn. now destruct (g x). Qed.

(** [AddFlags] against the documented table: the registrations it adds
    are, in order, those of the table's entries whose field is set. *)
Lemma AddFlags_documented f flags :
  map flagKey (AddFlags f flags)
  = map flagKey flags ++ omap (expected f) documentedFlags.
Proof.
  unfold AddFlags, documentedFlags. cbv zeta.
  rewrite !omap_cons_app. cbn [omap list_omap expected]. rewrite app_nil_r.
  destruct (ImpersonateGroup f) as [groups|], (Insecure f) as [insecure|];
    unfold StringArrayVar, BoolVar;
    rewrite ?bindString_optFlag, ?bindStringP_optFlag;
    rewrite ?map_app, ?flagKey_optFlag, <- ?app_assoc;
    reflexivity.
Qed.

Lemma AddFlags_appends f flags :
  AddFlags f flags = flags ++ AddFlags f [].
Proof.
  unfold AddFlags. cbv zeta.
  destruct (ImpersonateGroup f) as [groups|], (Insecure f) as [insecure|];
    unfold StringArrayVar, BoolVar;
    rewrite ?bindString_optFlag, ?bindStringP_optFlag;
    rewrite <- ?app_assoc; reflexivity.
Qed.

Lemma documentedFlags_names :
  map entryName (@documentedFlags ClientConfig)
  = ["kubeconfig"; "cache-dir"; "client-certificate"; "client-key"; "token"; "as";
     "as-group"; "username"; "password"; "cluster"; "user"; "namespace"; "context";
     "server"; "insecure-skip-tls-verify"; "certificate-authority"; "request-timeout"].
Proof. reflexivity. Qed.

Lemma documentedFlags_NoDup : NoDup (map entryName (@documentedFlags ClientConfig)).
Proof.
  rewrite documentedFlags_names. apply (bool_decide_unpack _). vm_compute. exact I.
Qed.

Lemma flagKey_named n flags :
  map flagKey (named n flags)
  = List.filter (fun k => entryName k =? n) (map flagKey flags).
Proof.
  unfold named. induction flags as [|fl flags IH]; [reflexivity|].
  cbn [List.filter map]. change (entryName (flagKey fl)) with (Name fl).
  destruct (Name fl =? n); cbn [map]; now rewrite IH.
Qed.

Lemma expected_name f e k : expected f e = Some k -> entryName k = entryName e.
Proof.
  destruct e as [[n sh] fld]. cbn. destruct (fld f); [|discriminate].
  now intros [= <-].
Qed.

Lemma filter_expected_absent f n tbl :
  ~ In n (map entryName tbl) ->
  List.filter (fun k => entryName k =? n) (omap (expected f) tbl) = [].
Proof.
  induction tbl as [|e tbl IH]; [reflexivity|]. intros Hn.
  rewrite omap_cons_app, List.filter_app, IH by (intros H; apply Hn; now right).
  rewrite app_nil_r. destruct (expected f e) as [k|] eqn:He; [|reflexivity].
  cbn. rewrite (expected_name _ _ _ He).
  destruct (String.eqb_spec (entryName e) n) as [Heq|]; [|reflexivity].
  exfalso. apply Hn. now left.
Qed.

Lemma filter_expected_present f n sh fld tbl :
  NoDup (map entryName tbl) ->
  In (n, sh, fld) tbl ->
  List.filter (fun k => entryName k =? n) (omap (expected f) tbl)
  = option_list ((fun d => (n, sh, d)) <$> fld f).
Proof.
  induction tbl as [|e tbl IH]; [intros _ []|].
  intros Hnd Hin. cbn [map] in Hnd. apply NoDup_cons in Hnd as [Hne Hnd].
  rewrite omap_cons_app, List.filter_app.
  destruct Hin as [->|Hin].
  - rewrite filter_expected_absent by (now rewrite <- list_elem_of_In).
    rewrite app_nil_r. cbn. destruct (fld f); [|reflexivity].
    cbn. unfold entryName; cbn. now rewrite String.eqb_refl.
  - rewrite (IH Hnd Hin).
    destruct (expected f e) as [k|] eqn:He; [|reflexivity].
    cbn. rewrite (expected_name _ _ _ He).
    destruct (String.eqb_spec (entryName e) n) as [Heq|]; [|reflexivity].
    exfalso. apply Hne. rewrite list_elem_of_In, Heq.
    change n with (entryName (n, sh, fld)). now apply in_map.
Qed.

Lemma named_AddFlags f n sh fld :
  In (n, sh, fld) documentedFlags ->
  map flagKey (named n (AddFlags f []))
  = option_list ((fun d => (n, sh, d)) <$> fld f).
Proof.
  intros Hin. rewrite flagKey_named, AddFlags_documented. cbn [map app].
  now apply filter_expected_present; [apply documentedFlags_NoDup|].
Qed.

(** C8: [AddFlags] only appends to the flag set, and what it appends
    follows the documented table entry by entry. A record whose optional
    fields are all nil adds no flag. For each documented entry, a nil
    field leaves no flag of that name and a set field leaves exactly one,
    with the documented name and shorthand and the field's value as
    default. Every flag added comes from a documented entry whose field
    is set. *)
Theorem AddFlags_binds_non_nil_fields f flags :
  AddFlags f flags = flags ++ AddFlags f []
  /\ map flagKey (AddFlags f []) = omap (expected f) documentedFlags
  /\ ((forall e, In e documentedFlags -> snd e f = None) -> AddFlags f [] = [])
  /\ (forall n sh fld, In (n, sh, fld) documentedFlags ->
        match fld f with
        | None => named n (AddFlags f []) = []
        | Some v => exists usage, named n (AddFlags f []) = [mkFlag n sh v usage]
        end)
  /\ (forall fl, In fl (AddFlags f []) ->
        exists sh fld,
          In (Name fl, sh, fld) documentedFlags /\ fld f = Some (DefValue fl)).
Proof.
  split; [apply AddFlags_appends|].
  assert (HK : map flagKey (AddFlags f []) = omap (expected f) documentedFlags)
    by apply (AddFlags_documented f []).
  split; [exact HK|]. split; [|split].
  - intros Hnil. apply (map_eq_nil flagKey). rewrite HK.
    assert (Hall : forall tbl : list (string * string * (ConfigFlags ClientConfig -> option FlagValue)),
               (forall e, In e tbl -> snd e f = None) -> omap (expected f) tbl = []).
    { induction tbl as [|[[n sh] fld] tbl IH]; [reflexivity|]. intros H.
      rewrite omap_cons_app, IH by (intros e He; apply H; now right).
      pose proof (H (n, sh, fld) (or_introl eq_refl)) as Hf. cbn in Hf.
      cbn. now rewrite Hf. }
    now apply Hall.
  - intros n sh fld Hin. pose proof (named_AddFlags f n sh fld Hin) as Hn.
    destruct (fld f) as [v|]; cbn in Hn.
    + destruct (named n (AddFlags f [])) as [|[n' sh' v' usage] [|fl2 rest]];
        try discriminate.
      injection Hn as -> -> ->. now exists usage.
    + now apply (map_eq_nil flagKey).
  - intros fl Hfl. apply (in_map flagKey) in Hfl. rewrite HK in Hfl.
    apply list_elem_of_In, list_elem_of_omap in Hfl as ([[n sh] fld] & He & Hk).
    cbn in Hk. destruct (fld f) as [v|] eqn:Hv; [|discriminate].
    unfold flagKey in Hk. injection Hk as -> -> ->.
    exists (Shorthand fl), fld. split; [now apply list_elem_of_In|exact Hv].
Qed.

End Properties.


(** * The properties on concrete inputs *)

Example defaultCacheDir_home :
  defaultCacheDir (prodCluster "") = "/home/helm/.kube/http-cache".
Proof. reflexivity. Qed.

Example AddFlags_zero_record : AddFlags (@zeroConfigFlags unit) [] = [].
Proof. reflexivity. Qed.

Example AddFlags_defaults_names :
  map Name (AddFlags (defaultConfigFlags (prodCluster "") false []) [])
  = ["kubeconfig"; "cache-dir"; "client-certificate"; "client-key"; "token"; "as";
     "as-group"; "cluster"; "user"; "namespace"; "context"; "server";
     "insecure-skip-tls-verify"; "certificate-authority"; "request-timeout"].
Proof. reflexivity. Qed.

Example NewActionConfig_configmaps_one_namespace :
  NewActionConfig (prodCluster "configmaps") false [] initialState
  = Returned ({| cfg_RESTClientGetter := Some 0;
                 cfg_KubeClient := kube_New (Some 0);
                 cfg_Releases := storage_Init (NewConfigMaps (ConfigMaps (CoreV1 tt) "prod"));
                 cfg_Log := None |},
              mkState [defaultConfigFlags (prodCluster "configmaps") false []] (Some 0) true).
Proof. reflexivity. Qed.

(** An unrecognised driver: the call panics, no configuration comes back. *)
Lemma NewActionConfig_unknown_driver_bogus :
  ~ In (Getenv (prodCluster "bogus") "HELM_DRIVER") knownDrivers
  /\ returns (NewActionConfig (prodCluster "bogus") false [] initialState) = false
  /\ NewActionConfig (prodCluster "bogus") false [] initialState
     = Panicked (PanicString "Unknown driver in HELM_DRIVER: bogus").
Proof.
  assert (H : ~ In (Getenv (prodCluster "bogus") "HELM_DRIVER") knownDrivers).
  { cbn. intros [H|[H|[H|[H|[H|[H|[]]]]]]]; discriminate H. }
  split; [exact H|].
  destruct (NewActionConfig_unknown_driver (prodCluster "bogus") false [] initialState H)
    as (Hreturns & _ & Hpanic).
  split; [exact Hreturns|].
  exact (Hpanic tt "prod" _ eq_refl eq_refl).
Defined.

(** Three calls of [kubeConfig] with three different credentials: the
    second and third return the getter of the first, built from the first
    credentials. *)
Lemma kubeConfig_initialized_once_three_calls :
  configOnce (@initialState unit) = false
  /\ rtc (step (prodCluster ""))
       (snd (kubeConfig (prodCluster "") ["001"%byte] initialState))
       (snd (kubeConfig (prodCluster "") ["002"%byte]
               (snd (kubeConfig (prodCluster "") ["001"%byte] initialState))))
  /\ kubeConfig (prodCluster "") ["003"%byte]
       (snd (kubeConfig (prodCluster "") ["002"%byte]
               (snd (kubeConfig (prodCluster "") ["001"%byte] initialState))))
     = (Some 0, mkState [defaultConfigFlags (prodCluster "") false ["001"%byte]] (Some 0) true).
Proof.
  split; [reflexivity|].
  assert (Hsteps : rtc (step (prodCluster ""))
            (snd (kubeConfig (prodCluster "") ["001"%byte] initialState))
            (snd (kubeConfig (prodCluster "") ["002"%byte]
                    (snd (kubeConfig (prodCluster "") ["001"%byte] initialState)))))
    by (apply rtc_once, step_kubeConfig).
  split; [exact Hsteps|].
  destruct (kubeConfig_initialized_once (prodCluster "") ["001"%byte] initialState)
    as (_ & Hlater & _).
  exact (proj1 (Hlater _ Hsteps) ["003"%byte]).
Defined.

(** A record with every override set and the persistent loader off
    yields the loader of the empty bytes and is left unchanged. *)
Lemma ToRawKubeConfigLoader_non_persistent_defaults :
  usePersistentConfig (defaultConfigFlags (prodCluster "") false ["001"%byte]) = false
  /\ ToRawKubeConfigLoader (prodCluster "")
       (defaultConfigFlags (prodCluster "") false ["001"%byte])
     = (Some tt, defaultConfigFlags (prodCluster "") false ["001"%byte]).
Proof.
  split; [reflexivity|].
  exact (proj1 (ToRawKubeConfigLoader_non_persistent (prodCluster "")
                  (defaultConfigFlags (prodCluster "") false ["001"%byte]) eq_refl)).
Defined.

(** A loader that reports an error: the namespace it returns alongside is
    dropped and "default" comes back. *)
Lemma getNamespace_default_on_error_no_context :
  consistent (@initialState unit) = true
  /\ fst (NewClientConfigFromBytes noContextCluster []) = Some tt
  /\ ClientConfig_Namespace noContextCluster tt = ("kube-system", false, Some "no context")
  /\ getNamespace noContextCluster ["001"%byte] initialState
     = Returned ("default", snd (kubeConfig noContextCluster ["001"%byte] initialState)).
Proof.
  split; [reflexivity|]. split; [reflexivity|]. split; [reflexivity|].
  exact (getNamespace_default_on_error noContextCluster ["001"%byte] initialState tt
           "kube-system" false (Some "no context") eq_refl eq_refl eq_refl).
Defined.

(** HELM_DRIVER "secrets", one namespace: the store is the Secrets store
    of the namespace the loader resolves. *)
Lemma NewActionConfig_secrets_prod :
  In (Getenv (prodCluster "secrets") "HELM_DRIVER") ["secret"; "secrets"; ""]
  /\ KubernetesClientSet (prodCluster "secrets")
       (kube_New (fst (kubeConfig (prodCluster "secrets") [] initialState))) = (tt, None)
  /\ workingNamespace (prodCluster "secrets") false []
       (snd (kubeConfig (prodCluster "secrets") [] initialState))
     = Returned ("prod", snd (kubeConfig (prodCluster "secrets") [] initialState))
  /\ NewActionConfig (prodCluster "secrets") false [] initialState
     = Returned ({| cfg_RESTClientGetter := Some 0;
                    cfg_KubeClient := kube_New (Some 0);
                    cfg_Releases := storage_Init (NewSecrets (Secrets (CoreV1 tt) "prod"));
                    cfg_Log := None |},
                 snd (kubeConfig (prodCluster "secrets") [] initialState)).
Proof.
  assert (Hd : In (Getenv (prodCluster "secrets") "HELM_DRIVER") ["secret"; "secrets"; ""])
    by (right; left; reflexivity).
  split; [exact Hd|]. split; [reflexivity|]. split; [reflexivity|].
  exact (proj1 (NewActionConfig_secrets (prodCluster "secrets") false [] initialState
                  tt "prod" _ Hd eq_refl eq_refl)).
Defined.

(** HELM_DRIVER "memory": the store is the in-memory one. *)
Lemma NewActionConfig_memory_prod :
  Getenv (prodCluster "memory") "HELM_DRIVER" = "memory"
  /\ KubernetesClientSet (prodCluster "memory")
       (kube_New (fst (kubeConfig (prodCluster "memory") [] initialState))) = (tt, None)
  /\ workingNamespace (prodCluster "memory") false []
       (snd (kubeConfig (prodCluster "memory") [] initialState))
     = Returned ("prod", snd (kubeConfig (prodCluster "memory") [] initialState))
  /\ NewActionConfig (prodCluster "memory") false [] initialState
     = Returned ({| cfg_RESTClientGetter := Some 0;
                    cfg_KubeClient := kube_New (Some 0);
                    cfg_Releases := storage_Init NewMemory;
                    cfg_Log := None |},
                 snd (kubeConfig (prodCluster "memory") [] initialState)).
Proof.
  split; [reflexivity|]. split; [reflexivity|]. split; [reflexivity|].
  exact (proj1 (NewActionConfig_memory (prodCluster "memory") false [] initialState
                  tt "prod" _ eq_refl eq_refl eq_refl)).
Defined.

(** All namespaces, with a loader that would resolve "prod": the store is
    scoped to the empty namespace. *)
Lemma NewActionConfig_allNamespaces_prod :
  NewActionConfig (prodCluster "configmap") true [] initialState
  = Returned ({| cfg_RESTClientGetter := Some 0;
                 cfg_KubeClient := kube_New (Some 0);
                 cfg_Releases := storage_Init (NewConfigMaps (ConfigMaps (CoreV1 tt) ""));
                 cfg_Log := None |},
              snd (kubeConfig (prodCluster "configmap") [] initialState))
  /\ exists cs,
       KubernetesClientSet (prodCluster "configmap")
         (kube_New (fst (kubeConfig (prodCluster "configmap") [] initialState))) = (cs, None)
       /\ newStore (prodCluster "configmap") cs ""
            (snd (kubeConfig (prodCluster "configmap") [] initialState))
          = Returned (storage_Init (NewConfigMaps (ConfigMaps (CoreV1 tt) "")),
                      snd (kubeConfig (prodCluster "configmap") [] initialState))
       /\ (storage_namespace (storage_Init (NewConfigMaps (ConfigMaps (CoreV1 tt) ""))) = Some ""
           \/ storage_Init (NewConfigMaps (ConfigMaps (CoreV1 tt) "")) = storage_Init NewMemory).
Proof.
  assert (H : NewActionConfig (prodCluster "configmap") true [] initialState
              = Returned ({| cfg_RESTClientGetter := Some 0;
                             cfg_KubeClient := kube_New (Some 0);
                             cfg_Releases :=
                               storage_Init (NewConfigMaps (ConfigMaps (CoreV1 tt) ""));
                             cfg_Log := None |},
                          snd (kubeConfig (prodCluster "configmap") [] initialState)))
    by reflexivity.
  split; [exact H|].
  exact (proj2 (proj2 (NewActionConfig_allNamespaces (prodCluster "configmap") [] initialState))
           _ _ H).
Defined.

(** The defaults bind the namespace flag once, with its shorthand and the
    empty default; [Username] is nil and binds nothing. *)
Lemma AddFlags_binds_non_nil_fields_defaults :
  In ("namespace", "n", fun f : ConfigFlags unit => StringValue <$> Namespace f) documentedFlags
  /\ In ("username", "", fun f : ConfigFlags unit => StringValue <$> Username f) documentedFlags
  /\ (exists usage,
        named "namespace" (AddFlags (defaultConfigFlags (prodCluster "") false []) [])
        = [mkFlag "namespace" "n" (StringValue "") usage])
  /\ named "username" (AddFlags (defaultConfigFlags (prodCluster "") false []) []) = [].
Proof.
  assert (Hn : In ("namespace", "n", fun f : ConfigFlags unit => StringValue <$> Namespace f)
                 documentedFlags) by (do 11 right; left; reflexivity).
  assert (Hu : In ("username", "", fun f : ConfigFlags unit => StringValue <$> Username f)
                 documentedFlags) by (do 7 right; left; reflexivity).
  split; [exact Hn|]. split; [exact Hu|].
  destruct (AddFlags_binds_non_nil_fields (defaultConfigFlags (prodCluster "") false []) [])
    as (_ & _ & _ & Hfield & _).
  split.
  - exact (Hfield _ _ _ Hn).
  - exact (Hfield _ _ _ Hu).
Defined.

(** The mapper of the zero record is built over the nil client. *)
Lemma ToRESTMapper_zero_record :
  fst (ToRESTMapper (error := string) (DiscoveryClient := unit) (@zeroConfigFlags unit))
  = Some (NewShortcutExpander (NewDeferredDiscoveryRESTMapper None) None)
  /\ mapper_client (NewShortcutExpander (NewDeferredDiscoveryRESTMapper (@None unit)) None) = None.
Proof.
  split; [reflexivity|].
  exact (proj2 (proj2 (proj2
           (ToDiscoveryClient_nil_and_ToRESTMapper_total (error := string)
              (DiscoveryClient := unit) (@zeroConfigFlags unit))))
           _ eq_refl).
Defined.

(** ** Where the stated claims fail *)

(** [NewConfigFlags] leaves [Username] and [Password] nil: not every
    optional string override is set to the empty string. *)
Lemma NewConfigFlags_Username_Password_nil :
  Username <$> (heap (snd (NewConfigFlags (prodCluster "") false [] initialState))
                  !! fst (NewConfigFlags (prodCluster "") false [] initialState))
  = Some None
  /\ Password <$> (heap (snd (NewConfigFlags (prodCluster "") false [] initialState))
                     !! fst (NewConfigFlags (prodCluster "") false [] initialState))
     = Some None.
Proof. split; reflexivity. Qed.

(** HELM_DRIVER "secret" and a client set that cannot be built:
    [log.Fatal] ends the call, no Secrets store is built and no
    configuration is returned. *)
Lemma NewActionConfig_secret_clientset_failure :
  Getenv (unreachableCluster "secret") "HELM_DRIVER" = "secret"
  /\ NewActionConfig (unreachableCluster "secret") false [] initialState
     = Fatal "cluster unreachable"
  /\ returns (NewActionConfig (unreachableCluster "secret") false [] initialState) = false.
Proof. split; [|split]; reflexivity. Qed.

(** HELM_DRIVER "memory" and a client set that cannot be built: again
    [log.Fatal] ends the call before any driver is built. *)
Lemma NewActionConfig_memory_clientset_failure :
  Getenv (unreachableCluster "memory") "HELM_DRIVER" = "memory"
  /\ NewActionConfig (unreachableCluster "memory") true [] initialState
     = Fatal "cluster unreachable"
  /\ returns (NewActionConfig (unreachableCluster "memory") true [] initialState) = false.
Proof. split; [|split]; reflexivity. Qed.

(** * Further properties of [config_flags.go] *)

Section LoaderProperties.

Context {error ClientConfig Clientset : Type}.
Variable W : Collaborators error ClientConfig Clientset.

Implicit Types (f : ConfigFlags ClientConfig) (st : State ClientConfig).
Implicit Types (c : list byte).

Lemma set_clientConfig_same f : set_clientConfig (clientConfig f) f = f.
Proof. now destruct f. Qed.

(** X1: a persistent record with no stored loader builds one on the
    first call and stores it; when that loader is not nil, every later
    call returns it and leaves the record as it is, whatever the
    collaborators would build by then. Only the [clientConfig] field of
    the record changes. *)
Theorem persistent_loader_built_once f cc :
  usePersistentConfig f = true ->
  clientConfig f = None ->
  fst (NewClientConfigFromBytes W []) = Some cc ->
  ToRawKubeConfigLoader W f = (Some cc, set_clientConfig (Some cc) f)
  /\ (forall W' : Collaborators error ClientConfig Clientset,
        ToRawKubeConfigLoader W' (snd (ToRawKubeConfigLoader W f))
        = (Some cc, snd (ToRawKubeConfigLoader W f))).
Proof.
  intros Hp Hc Hcc.
  assert (H1 : ToRawKubeConfigLoader W f = (Some cc, set_clientConfig (Some cc) f)).
  { rewrite (ToRawKubeConfigLoader_persistent_builds W f Hp Hc). now rewrite Hcc. }
  split; [exact H1|]. intros W'. rewrite H1. cbn [snd].
  apply ToRawKubeConfigLoader_persistent_cached; [exact Hp|reflexivity].
Qed.

(** X2: when the build yields a nil loader nothing is stored: the call
    returns nil and leaves the record unchanged, so the next call builds
    again and returns whatever the collaborators build then. *)
Theorem persistent_loader_nil_not_cached f :
  usePersistentConfig f = true ->
  clientConfig f = None ->
  fst (NewClientConfigFromBytes W []) = None ->
  ToRawKubeConfigLoader W f = (None, f)
  /\ (forall W' : Collaborators error ClientConfig Clientset,
        fst (ToRawKubeConfigLoader W' (snd (ToRawKubeConfigLoader W f)))
        = fst (NewClientConfigFromBytes W' [])).
Proof.
  intros Hp Hc Hnil.
  assert (H1 : ToRawKubeConfigLoader W f = (None, f)).
  { rewrite (ToRawKubeConfigLoader_persistent_builds W f Hp Hc), Hnil.
    now rewrite <- Hc, set_clientConfig_same. }
  split; [exact H1|]. intros W'. rewrite H1. cbn [snd].
  now rewrite (ToRawKubeConfigLoader_persistent_builds W' f Hp Hc).
Qed.

Lemma ToRawKubeConfigLoader_fields f :
  snd (ToRawKubeConfigLoader W f)
  = set_clientConfig (clientConfig (snd (ToRawKubeConfigLoader W f))) f.
Proof.
  unfold ToRawKubeConfigLoader, toRawKubePersistentConfigLoader.
  destruct (usePersistentConfig f); cbn [snd]; [|now rewrite set_clientConfig_same].
  destruct (clientConfig f) eqn:Hc; cbn; [|reflexivity].
  now rewrite Hc, <- Hc, set_clientConfig_same.
Qed.

(** X3: [ToRawKubeConfigLoader] called through a pointer panics on a
    pointer to no object; otherwise it returns, keeps [config], the guard
    and the size of the heap, leaves every other object untouched, and
    changes at most the [clientConfig] field of the object it is called
    on. *)
Theorem getter_ToRawKubeConfigLoader_footprint p st :
  match heap st !! p with
  | None => getter_ToRawKubeConfigLoader W (Some p) st = Panicked NilDereference
  | Some f =>
      exists loader st',
        getter_ToRawKubeConfigLoader W (Some p) st = Returned (loader, st')
        /\ loader = fst (ToRawKubeConfigLoader W f)
        /\ config st' = config st
        /\ configOnce st' = configOnce st
        /\ length (heap st') = length (heap st)
        /\ (forall q, q <> p -> heap st' !! q = heap st !! q)
        /\ (exists cc, heap st' !! p = Some (set_clientConfig cc f))
  end.
Proof.
  unfold getter_ToRawKubeConfigLoader, call.
  destruct (heap st !! p) as [f|] eqn:Hp; [|reflexivity].
  pose proof (ToRawKubeConfigLoader_fields f) as Hf.
  destruct (ToRawKubeConfigLoader W f) as [loader f'] eqn:Hm. cbn [fst snd] in *.
  eexists _, _. split; [reflexivity|]. cbn.
  split; [reflexivity|]. split; [reflexivity|]. split; [reflexivity|].
  split; [apply length_insert|]. split.
  - intros q Hq. now apply list_lookup_insert_ne.
  - exists (clientConfig f'). rewrite <- Hf.
    apply list_lookup_insert_eq. now apply lookup_lt_Some with f.
Qed.

End LoaderProperties.

Section RESTConfigProperties.

Context {error ClientConfig Clientset RestConfig : Type}.
Variable W : Collaborators error ClientConfig Clientset.
Variable ClientConfig_ClientConfig : ClientConfig -> option RestConfig * option error.

(** X4: for a record that does not use the persistent loader,
    [ToRESTConfig] is the answer of the loader built from empty bytes
    (its error included, unchanged) and a panic when that loader is nil;
    the record is left as it was, and no field of it, override or
    credential, has any influence: two such records give the same
    result. *)
Theorem ToRESTConfig_ignores_overrides (f g : ConfigFlags ClientConfig) :
  usePersistentConfig f = false ->
  usePersistentConfig g = false ->
  ToRESTConfig RestConfig W ClientConfig_ClientConfig f
  = match fst (NewClientConfigFromBytes W []) with
    | Some cc => Returned (ClientConfig_ClientConfig cc, f)
    | None => Panicked NilDereference
    end
  /\ outcome_map fst (ToRESTConfig RestConfig W ClientConfig_ClientConfig f)
     = outcome_map fst (ToRESTConfig RestConfig W ClientConfig_ClientConfig g).
Proof.
  intros Hf Hg. unfold ToRESTConfig.
  rewrite (ToRawKubeConfigLoader_fresh W f Hf), (ToRawKubeConfigLoader_fresh W g Hg).
  split; [reflexivity|].
  now destruct (fst (NewClientConfigFromBytes W [])).
Qed.

End RESTConfigProperties.

Section ActionConfigProperties.

Context {error ClientConfig Clientset : Type}.
Variable W : Collaborators error ClientConfig Clientset.

Implicit Types (f : ConfigFlags ClientConfig) (st : State ClientConfig).
Implicit Types (c : list byte).

(** What [getNamespace] does in a consistent state. *)
Lemma getNamespace_outcome c st :
  consistent st = true ->
  getNamespace W c st
  = match fst (NewClientConfigFromBytes W []) with
    | Some cc =>
        Returned (namespaceOrDefault (ClientConfig_Namespace W cc), snd (kubeConfig W c st))
    | None => Panicked NilDereference
    end.
Proof.
  intros Hst. rewrite getNamespace_unfold.
  destruct (kubeConfig_getter W c _ Hst) as (p & f & Hg & Hp & Hf).
  now rewrite Hg, (call_ToRawKubeConfigLoader_fresh W _ _ _ Hp Hf).
Qed.

(** X5: in every state the package can reach from process start,
    [getNamespace] never ends in [log.Fatal]; it panics exactly when the
    loader built from empty bytes is nil, and otherwise returns the
    loader's namespace or "default" and leaves the state that
    [kubeConfig] leaves. *)
Theorem getNamespace_in_reachable_states c st :
  rtc (step W) initialState st ->
  getNamespace W c st
  = match fst (NewClientConfigFromBytes W []) with
    | Some cc =>
        Returned (namespaceOrDefault (ClientConfig_Namespace W cc), snd (kubeConfig W c st))
    | None => Panicked NilDereference
    end
  /\ (forall e, getNamespace W c st <> Fatal e)
  /\ (getNamespace W c st = Panicked NilDereference
      <-> fst (NewClientConfigFromBytes W []) = None).
Proof.
  intros Hsteps.
  pose proof (steps_consistent W _ _ (initialState_consistent) Hsteps) as Hst.
  pose proof (getNamespace_outcome c st Hst) as H.
  split; [exact H|]. rewrite H.
  destruct (fst (NewClientConfigFromBytes W [])) as [cc|]; split; try discriminate.
  - split; discriminate.
  - split; reflexivity.
Qed.




Lemma newStore_configmaps cs ns st :
  In (Getenv W "HELM_DRIVER") ["configmap"; "configmaps"] ->
  newStore W cs ns st
  = Returned (storage_Init (NewConfigMaps (ConfigMaps (CoreV1 cs) ns)), st).
Proof.
  intros H. unfold newStore.
  destruct H as [<- | [<- | []]]; reflexivity.
Qed.


(** X7: with HELM_DRIVER "configmap" or "configmaps", once the client
    set is built and the working namespace obtained, [NewActionConfig]
    returns a configuration whose [Releases] is the ConfigMaps-backed
    store scoped to that namespace. *)
Theorem NewActionConfig_configmaps a c st cs ns st2 :
  In (Getenv W "HELM_DRIVER") ["configmap"; "configmaps"] ->
  KubernetesClientSet W (kube_New (fst (kubeConfig W c st))) = (cs, None) ->
  workingNamespace W a c (snd (kubeConfig W c st)) = Returned (ns, st2) ->
  NewActionConfig W a c st
  = Returned ({| cfg_RESTClientGetter := fst (kubeConfig W c st2);
                 cfg_KubeClient := kube_New (fst (kubeConfig W c st));
                 cfg_Releases := storage_Init (NewConfigMaps (ConfigMaps (CoreV1 cs) ns));
                 cfg_Log := None |},
              snd (kubeConfig W c st2))
  /\ storage_namespace (storage_Init (NewConfigMaps (ConfigMaps (CoreV1 cs) ns))) = Some ns.
Proof.
  intros Hd Hcs Hns. split; [|reflexivity].
  now rewrite NewActionConfig_unfold, Hcs, Hns, (newStore_configmaps _ _ _ Hd).
Qed.






End ActionConfigProperties.

Section FlagSetProperties.

Context {ClientConfig : Type}.

Implicit Types (f : ConfigFlags ClientConfig).

Lemma Name_AddFlags f :
  map Name (AddFlags f []) = map entryName (omap (expected f) documentedFlags).
Proof.
  pose proof (AddFlags_documented f []) as H. cbn [map app] in H.
  rewrite <- H, map_map. reflexivity.
Qed.

Lemma expected_sublist f
    (tbl : list (string * string * (ConfigFlags ClientConfig -> option FlagValue))) :
  sublist (map entryName (omap (expected f) tbl)) (map entryName tbl).
Proof.
  induction tbl as [|e tbl IH]; [constructor|].
  rewrite omap_cons_app. destruct (expected f e) as [k|] eqn:He; cbn.
  - rewrite (expected_name f e k He). now constructor.
  - now constructor.
Qed.

(** X10: the flags [AddFlags] adds to an empty set carry pairwise
    distinct names, taken in order from the seventeen documented ones;
    and when the set it is given has distinct names, none of them
    documented, the set it returns still has distinct names, so no flag
    is ever registered twice. *)
Theorem AddFlags_names_distinct f flags :
  sublist (map Name (AddFlags f [])) (map entryName (@documentedFlags ClientConfig))
  /\ NoDup (map Name (AddFlags f []))
  /\ length (AddFlags f []) <= 17
  /\ (NoDup (map Name flags) ->
      (forall fl, In fl flags -> ~ In (Name fl) (map entryName (@documentedFlags ClientConfig))) ->
      NoDup (map Name (AddFlags f flags))).
Proof.
  assert (Hsub : sublist (map Name (AddFlags f []))
                   (map entryName (@documentedFlags ClientConfig)))
    by (rewrite Name_AddFlags; apply expected_sublist).
  assert (Hnd : NoDup (map Name (AddFlags f [])))
    by (eapply sublist_NoDup;
          [apply (documentedFlags_NoDup (ClientConfig := ClientConfig))|exact Hsub]).
  split; [exact Hsub|]. split; [exact Hnd|]. split.
  - rewrite <- (length_map Name). apply sublist_length in Hsub.
    now rewrite documentedFlags_names in Hsub.
  - intros Hflags Hfresh. rewrite AddFlags_appends, map_app. apply NoDup_app.
    split; [exact Hflags|]. split; [|exact Hnd].
    intros n Hn Hn'. apply list_elem_of_In, in_map_iff in Hn as (fl & <- & Hfl).
    apply (Hfresh fl Hfl). apply list_elem_of_In.
    eapply elem_of_sublist; [exact Hn'|exact Hsub].
Qed.

End FlagSetProperties.

Section DiscoverCacheDirProperties.

Variable runeWidth : string -> nat.
Variable Join : list string -> string.

Lemma prefix_app_inv old s :
  String.prefix old s = true -> exists rest, s = (old ++ rest)%string.
Proof.
  revert s. induction old as [|a old IH]; intros s H; [now exists s|].
  destruct s as [|b s]; [discriminate|]. cbn in H.
  destruct (ascii_dec a b) as [->|]; [|discriminate].
  destruct (IH s H) as [rest ->]. now exists rest.
Qed.

Lemma prefix_app old s : String.prefix old (old ++ s) = true.
Proof.
  induction old as [|a old IH]; [now destruct s|]. simpl.
  destruct (ascii_dec a a); [exact IH|congruence].
Qed.

Lemma dropString_app old s : dropString (String.length old) (old ++ s) = s.
Proof.
  induction old as [|a old IH]; [now destruct s|]. exact IH.
Qed.

Lemma replaceFirst_eq old new s :
  replaceFirst old new s
  = if String.prefix old s then (new ++ dropString (String.length old) s)%string
    else match s with
         | EmptyString => EmptyString
         | String c rest => String c (replaceFirst old new rest)
         end.
Proof. now destruct s. Qed.

Lemma occurs_eq old s :
  occurs old s
  = (String.prefix old s
     || match s with
        | EmptyString => false
        | String _ rest => occurs old rest
        end).
Proof. now destruct s. Qed.

Lemma replaceFirst_prefix old new s :
  replaceFirst old new (old ++ s) = (new ++ s)%string.
Proof.
  now rewrite replaceFirst_eq, prefix_app, dropString_app.
Qed.

Lemma replaceFirst_absent old new s :
  occurs old s = false -> replaceFirst old new s = s.
Proof.
  induction s as [|c s IH]; rewrite occurs_eq, replaceFirst_eq; intros H;
    apply orb_false_iff in H as [Hp Hs]; rewrite Hp; [reflexivity|].
  now rewrite IH.
Qed.

Lemma list_ascii_of_string_app a b :
  list_ascii_of_string (a ++ b) = list_ascii_of_string a ++ list_ascii_of_string b.
Proof.
  induction a as [|ch a IH]; [reflexivity|]. simpl. now rewrite IH.
Qed.

Lemma legal_is_ascii ch :
  legalFileCharacter ch = true -> Nat.ltb (nat_of_ascii ch) 128 = true.
Proof.
  destruct ch as [[] [] [] [] [] [] [] []]; vm_compute; congruence.
Qed.

Lemma replaceIllegal_legal skip s : legalString (replaceIllegal runeWidth skip s).
Proof.
  unfold legalString. revert skip.
  induction s as [|ch s IH]; intros skip; [constructor|].
  destruct skip as [|k]; simpl; [|apply IH].
  destruct (Nat.ltb (nat_of_ascii ch) 128); simpl.
  - constructor; [|apply IH]. now destruct (legalFileCharacter ch) eqn:Hl.
  - constructor; [reflexivity|apply IH].
Qed.

Lemma replaceIllegal_fixed s :
  legalString s -> replaceIllegal runeWidth 0 s = s.
Proof.
  unfold legalString. induction s as [|ch s IH]; [reflexivity|]. simpl.
  intros H. apply Forall_cons in H as [Hch Hs].
  now rewrite (legal_is_ascii ch Hch), Hch, (IH Hs).
Qed.

Lemma legal_no_occurrence old s ch :
  In ch (list_ascii_of_string old) ->
  legalFileCharacter ch = false ->
  legalString s -> occurs old s = false.
Proof.
  intros Hin Hch. unfold legalString.
  assert (Hp : forall t, Forall (fun x => legalFileCharacter x = true) (list_ascii_of_string t) ->
                         String.prefix old t = false).
  { intros t Ht. destruct (String.prefix old t) eqn:Hpre; [|reflexivity].
    destruct (prefix_app_inv _ _ Hpre) as [rest ->].
    rewrite list_ascii_of_string_app in Ht. apply Forall_app in Ht as [Hold _].
    rewrite Forall_forall in Hold. apply list_elem_of_In in Hin.
    specialize (Hold ch Hin). congruence. }
  induction s as [|x s IH]; intros Hs; rewrite occurs_eq, (Hp _ Hs); [reflexivity|].
  simpl in Hs. apply Forall_cons in Hs as [_ Hs]. now apply IH.
Qed.

Lemma schemelessHost_legal s : legalString s -> schemelessHost s = s.
Proof.
  intros Hs. unfold schemelessHost.
  rewrite (replaceFirst_absent "https://" "" s), (replaceFirst_absent "http://" "" s);
    try reflexivity;
    apply legal_no_occurrence with ":"%char; try exact Hs; try reflexivity;
    simpl; tauto.
Qed.

(** X11: whatever the host, the directory name [computeDiscoverCacheDir]
    derives from it is made only of letters, digits, the underscore, the
    slash, the dot and the two parentheses. Such a name is a fixed point:
    deriving a name from it gives it back, so the directory of a derived
    name is the directory of the host it came from. *)
Theorem safeHost_legal_and_stable parentDir host :
  legalString (safeHost runeWidth host)
  /\ safeHost runeWidth (safeHost runeWidth host) = safeHost runeWidth host
  /\ computeDiscoverCacheDir runeWidth Join parentDir (safeHost runeWidth host)
     = computeDiscoverCacheDir runeWidth Join parentDir host.
Proof.
  assert (Hl : legalString (safeHost runeWidth host)) by apply replaceIllegal_legal.
  assert (Hs : safeHost runeWidth (safeHost runeWidth host) = safeHost runeWidth host).
  { unfold safeHost at 1. rewrite (schemelessHost_legal _ Hl).
    now apply replaceIllegal_fixed. }
  split; [exact Hl|]. split; [exact Hs|].
  unfold computeDiscoverCacheDir. now rewrite Hs.
Qed.

Lemma occurs_https_after_http h :
  occurs "https://" ("http://" ++ h) = occurs "https://" h.
Proof.
  cbn. reflexivity.
Qed.

(** X12: a host that contains neither "https://" nor "http://" gets the
    same directory with either scheme in front of it as without one. *)
Theorem computeDiscoverCacheDir_scheme parentDir h :
  occurs "https://" h = false ->
  occurs "http://" h = false ->
  computeDiscoverCacheDir runeWidth Join parentDir ("https://" ++ h)
  = computeDiscoverCacheDir runeWidth Join parentDir h
  /\ computeDiscoverCacheDir runeWidth Join parentDir ("http://" ++ h)
     = computeDiscoverCacheDir runeWidth Join parentDir h.
Proof.
  intros Hs Hp.
  assert (H0 : schemelessHost h = h).
  { unfold schemelessHost. now rewrite (replaceFirst_absent _ _ _ Hs), (replaceFirst_absent _ _ _ Hp). }
  assert (H1 : schemelessHost ("https://" ++ h) = h).
  { unfold schemelessHost. rewrite replaceFirst_prefix. cbn [append].
    now apply replaceFirst_absent. }
  assert (H2 : schemelessHost ("http://" ++ h) = h).
  { unfold schemelessHost. rewrite (replaceFirst_absent "https://").
    - now rewrite replaceFirst_prefix.
    - now rewrite occurs_https_after_http. }
  unfold computeDiscoverCacheDir, safeHost. now rewrite H0, H1, H2.
Qed.

End DiscoverCacheDirProperties.

(** * Properties of [history.go] *)

(** A loop over the indices [0 .. n-1] of a slice that appends what it
    finds at each index collects the first [n] elements. *)
Lemma foldl_index_firstn {A B : Type} (g : A -> B) (pre l : list A) (n : nat) (acc : list B) :
  n <= length l ->
  foldl (fun acc i => match (pre ++ l) !! i with
                      | Some r => acc ++ [g r]
                      | None => acc
                      end) acc (seq (length pre) n)
  = acc ++ map g (firstn n l).
Proof.
  revert pre l acc. induction n as [|n IH]; intros pre l acc Hn.
  - cbn. now rewrite app_nil_r.
  - destruct l as [|x l]; [cbn in Hn; lia|]. cbn [seq foldl firstn map].
    rewrite lookup_app_r by lia. rewrite Nat.sub_diag. cbn [lookup list_lookup].
    replace (pre ++ x :: l) with ((pre ++ [x]) ++ l) by now rewrite <- app_assoc.
    replace (S (length pre)) with (length (pre ++ [x])) by (rewrite length_app; cbn; lia).
    rewrite IH by (cbn in Hn; lia). now rewrite <- app_assoc.
Qed.

Lemma Forall_rev_iff {A : Type} (Q : A -> Prop) (l : list A) :
  Forall Q (rev l) <-> Forall Q l.
Proof.
  split; intros H; [rewrite <- (rev_involutive l)|]; now apply Forall_rev.
Qed.

Lemma Forall2_rev {A B : Type} (Q : A -> B -> Prop) (l : list A) (k : list B) :
  Forall2 Q l k -> Forall2 Q (rev l) (rev k).
Proof.
  intros H. rewrite !rev_alt. now apply Forall2_reverse.
Qed.

Lemma append_hyphen_not_MISSING (a b : string) : (a ++ "-" ++ b)%string <> "MISSING".
Proof.
  intros H. apply (f_equal list_ascii_of_string) in H.
  rewrite !list_ascii_of_string_app in H.
  assert (Hin : In "-"%char (list_ascii_of_string "MISSING")).
  { rewrite <- H. apply in_or_app. right. now left. }
  cbn in Hin. repeat destruct Hin as [Hin|Hin]; try discriminate Hin. exact Hin.
Qed.

Lemma StronglySorted_firstn {A : Type} (R : A -> A -> Prop) (n : nat) (l : list A) :
  StronglySorted R l -> StronglySorted R (firstn n l).
Proof.
  intros H. rewrite <- (firstn_skipn n l) in H.
  now apply StronglySorted_app_1_l in H.
Qed.

Lemma StronglySorted_rev {A : Type} (R : A -> A -> Prop) (l : list A) :
  StronglySorted R l -> StronglySorted (fun x y => R y x) (rev l).
Proof.
  induction 1 as [|x l Hl IH Hx]; [constructor|]. cbn.
  apply StronglySorted_app_2; [|exact IH|repeat constructor].
  intros y z Hy Hz. apply list_elem_of_In in Hz as [<-|[]].
  apply list_elem_of_In, in_rev in Hy. rewrite Forall_forall in Hx.
  apply Hx. now apply list_elem_of_In.
Qed.

Lemma StronglySorted_impl {A : Type} (R R' : A -> A -> Prop) (l : list A) :
  (forall x y, R x y -> R' x y) -> StronglySorted R l -> StronglySorted R' l.
Proof.
  intros HR. induction 1 as [|x l Hl IH Hx]; constructor; [exact IH|].
  eapply Forall_impl; [exact Hx|]. intros y. apply HR.
Qed.

Section HistoryProperties.

Context {error Status Time OutputFormat : Type} `{EqDecision OutputFormat}.
Variable P : HistoryPackages error Status Time OutputFormat.

Implicit Types (r : Release Status Time) (rls : list (option (Release Status Time))).
Implicit Types (h : releaseHistory).

(** X13: the chart column reads "MISSING" exactly when the chart or its
    metadata is nil; otherwise it is the chart's name, a hyphen and the
    metadata's version. In the same two cases the application version
    reads "MISSING" too. Neither function dereferences a nil pointer. *)
Theorem formatChartname_MISSING (c : option Chart) :
  (formatChartname P c = "MISSING"
   <-> c = None \/ exists ch, c = Some ch /\ ch_Metadata ch = None)
  /\ (forall ch md, c = Some ch -> ch_Metadata ch = Some md ->
        formatChartname P c = (Chart_Name P ch ++ "-" ++ md_Version md)%string
        /\ formatAppVersion P c = Chart_AppVersion P ch)
  /\ (c = None \/ (exists ch, c = Some ch /\ ch_Metadata ch = None) ->
        formatAppVersion P c = "MISSING").
Proof.
  split; [|split].
  - destruct c as [ch|]; cbn.
    + destruct (ch_Metadata ch) as [md|] eqn:Hmd.
      * split.
        -- intros H. now apply append_hyphen_not_MISSING in H.
        -- intros [H|(ch' & H & Hn)]; [discriminate|].
           injection H as <-. congruence.
      * split; [|reflexivity]. intros _. right. now exists ch.
    + split; [|reflexivity]. intros _. now left.
  - intros ch md -> Hmd. cbn. now rewrite Hmd.
  - intros [->|(ch & -> & Hn)]; cbn; [reflexivity|]. now rewrite Hn.
Qed.

Lemma releaseInfoOf_madeFrom r (info : Info Status Time) :
  rel_Info r = Some info -> madeFrom P (releaseInfoOf P r info) (Some r).
Proof.
  intros Hi. exists r, info. split; [reflexivity|]. split; [exact Hi|].
  split; [reflexivity|]. unfold releaseInfoOf.
  destruct (negb (Time_IsZero P (info_LastDeployed info))); repeat split.
Qed.

Lemma getReleaseHistory_from_returned rls h0 h :
  getReleaseHistory_from P rls h0 = Returned h ->
  exists h', h = h0 ++ h' /\ Forall2 (madeFrom P) h' rls.
Proof.
  revert h0. induction rls as [|[r|] rls IH]; intros h0; cbn.
  - intros [= <-]. exists []. split; [now rewrite app_nil_r|constructor].
  - destruct (rel_Info r) as [info|] eqn:Hi; [|discriminate].
    intros H. destruct (IH _ H) as (h' & -> & Hall).
    exists (releaseInfoOf P r info :: h'). split; [now rewrite <- app_assoc|].
    constructor; [now apply releaseInfoOf_madeFrom|exact Hall].
  - discriminate.
Qed.

Lemma getReleaseHistory_from_outcome rls h0 :
  (returns (getReleaseHistory_from P rls h0) = true <-> Forall readable rls)
  /\ (returns (getReleaseHistory_from P rls h0) = false ->
        getReleaseHistory_from P rls h0 = Panicked NilDereference).
Proof.
  revert h0. induction rls as [|[r|] rls IH]; intros h0; cbn.
  - split; [split; [constructor|reflexivity]|discriminate].
  - destruct (rel_Info r) as [info|] eqn:Hi.
    + destruct (IH (h0 ++ [releaseInfoOf P r info])) as [Hiff Hpanic].
      split; [|exact Hpanic]. rewrite Hiff. split.
      * intros H. constructor; [now exists r, info|exact H].
      * intros H. now apply Forall_cons in H as [_ H].
    + split; [|reflexivity]. split; [discriminate|].
      intros H. apply Forall_cons in H as [(r' & info & [= <-] & Hinfo) _]. congruence.
  - split; [|reflexivity]. split; [discriminate|].
    intros H. apply Forall_cons in H as [(r' & info & Hr & _) _]. discriminate.
Qed.

(** X14: [getReleaseHistory] returns when every release pointer and
    every [Info] pointer is non-nil, and panics on a nil dereference
    otherwise; a nil chart or nil metadata is no obstacle. The history it
    returns has one entry per release, made from the releases in reverse
    order, so the revisions read the versions backwards. *)
Theorem getReleaseHistory_reverses rls :
  (returns (getReleaseHistory P rls) = true <-> Forall readable rls)
  /\ (returns (getReleaseHistory P rls) = false ->
        getReleaseHistory P rls = Panicked NilDereference)
  /\ (forall h, getReleaseHistory P rls = Returned h ->
        Forall2 (madeFrom P) h (rev rls)
        /\ length h = length rls
        /\ Forall2 (fun v o => exists r, o = Some r /\ v = rel_Version r)
             (rev (map ri_Revision h)) rls).
Proof.
  unfold getReleaseHistory.
  destruct (getReleaseHistory_from_outcome (rev rls) []) as [Hiff Hpanic].
  split; [|split].
  - rewrite Hiff. now rewrite Forall_rev_iff.
  - exact Hpanic.
  - intros h H. destruct (getReleaseHistory_from_returned _ _ _ H) as (h' & -> & Hall).
    cbn [app]. split; [exact Hall|]. split.
    + apply Forall2_length in Hall. now rewrite Hall, length_rev.
    + rewrite <- map_rev. apply Forall2_rev in Hall. rewrite rev_involutive in Hall.
      apply Forall2_fmap_l. eapply Forall2_impl; [exact Hall|].
      intros ri o (r & info & -> & _ & _ & Hrev & _). now exists r.
Qed.

Lemma historyRows_eq h (tbl : Table) :
  historyRows h tbl = tbl ++ headerRow :: map rowOf h.
Proof.
  unfold historyRows, AddRow.
  pose proof (foldl_index_firstn rowOf [] h (length h) (tbl ++ [headerRow]) (Nat.le_refl _))
    as H.
  rewrite firstn_all, <- app_assoc in H. exact H.
Qed.

(** X15: the callback [marshalHistory] passes for the table format adds
    the header row and then one row per history entry, in order, after
    whatever the table holds; a format that is none of YAML, JSON and
    table is answered with [ErrInvalidFormatType] and no bytes, while
    YAML and JSON go to [Marshal] with the history as it is. *)
Theorem marshalHistory_rows h format :
  historyRows h [] = headerRow :: map rowOf h
  /\ length (historyRows h []) = S (length h)
  /\ (forall tbl : Table, historyRows h tbl = tbl ++ historyRows h [])
  /\ (format <> YAML P -> format <> JSON P -> format <> TableFormat P ->
        marshalHistory P format h = ("", Some (ErrInvalidFormatType P)))
  /\ (format <> YAML P -> format <> JSON P -> format = TableFormat P ->
        marshalHistory P format h = MarshalTable P format (historyRows h))
  /\ (format = YAML P \/ format = JSON P ->
        marshalHistory P format h = Marshal P format h).
Proof.
  split; [apply (historyRows_eq h [])|]. split.
  { rewrite (historyRows_eq h []). cbn. now rewrite length_map. }
  split; [intros tbl; now rewrite !historyRows_eq|].
  unfold marshalHistory. split; [|split].
  - intros Hy Hj Ht.
    now rewrite !bool_decide_eq_false_2 by assumption.
  - intros Hy Hj Ht.
    rewrite (bool_decide_eq_false_2 _ Hy), (bool_decide_eq_false_2 _ Hj).
    now rewrite (bool_decide_eq_true_2 _ Ht).
  - intros [Hy|Hj].
    + now rewrite (bool_decide_eq_true_2 _ Hy).
    + rewrite (bool_decide_eq_true_2 _ Hj). now rewrite orb_true_r.
Qed.

Lemma firstReleases_firstn rls (max : Z) :
  firstReleases rls max = firstn (Z.to_nat (min (Z.of_nat (length rls)) max)) rls.
Proof.
  unfold firstReleases.
  pose proof (foldl_index_firstn (fun o : option (Release Status Time) => o) [] rls
                (Z.to_nat (min (Z.of_nat (length rls)) max)) []) as H.
  cbn [app length] in H. rewrite map_id in H. apply H.
  unfold min. destruct (Z.ltb_spec (Z.of_nat (length rls)) max); lia.
Qed.

Lemma min_to_nat (n : nat) (max : Z) :
  Z.to_nat (min (Z.of_nat n) max) = Nat.min n (Z.to_nat max).
Proof.
  unfold min. destruct (Z.ltb_spec (Z.of_nat n) max); lia.
Qed.

(** X16: [getHistory] hands the error of [Run] to its caller with an
    empty string; and when [Run] succeeds but [Max] is zero or negative,
    or there is no release, it returns the empty string and no error
    without reading a release and without looking at the output format,
    valid or not. *)
Theorem getHistory_nothing_to_show client name rls :
  (forall e, History_Run P client name = (rls, Some e) ->
     getHistory P client name = Returned ("", Some e))
  /\ (History_Run P client name = (rls, None) ->
      (hist_Max client <= 0)%Z \/ Reverse_SortByRevision P rls = [] ->
      getHistory P client name = Returned ("", None)).
Proof.
  unfold getHistory. split.
  - intros e ->. reflexivity.
  - intros -> Hnone. rewrite firstReleases_firstn, min_to_nat.
    assert (Hn : Nat.min (length (Reverse_SortByRevision P rls)) (Z.to_nat (hist_Max client))
                 = 0 \/ Reverse_SortByRevision P rls = []).
    { destruct Hnone as [Hmax| ->]; [left; lia|now right]. }
    destruct Hn as [-> | ->]; [reflexivity|]. now rewrite firstn_nil.
Qed.

Lemma madeFrom_revisions h (rs : list (Release Status Time)) :
  Forall2 (madeFrom P) h (map Some rs) -> map ri_Revision h = map rel_Version rs.
Proof.
  revert h. induction rs as [|r rs IH]; intros h H; inversion H; subst; [reflexivity|].
  cbn. f_equal; [|now apply IH].
  match goal with Hm : madeFrom _ _ _ |- _ =>
    destruct Hm as (r' & info & [= <-] & _ & _ & Hrev & _) end.
  exact Hrev.
Qed.

(** X17: when [Run] succeeds, the sorted slice holds no nil release,
    [Max] is positive, the releases to show have an [Info] and the
    output format parses, [getHistory] marshals a history of
    [min(len, Max)] entries made from the first releases of the sorted
    slice, written in reverse: with the slice sorted by falling version,
    the revisions shown rise, and no release left out has a version above
    one that is shown. A marshalling error comes back with an empty
    string. *)
Theorem getHistory_shows_latest client name rls (rs : list (Release Status Time)) format :
  let n := Nat.min (length rs) (Z.to_nat (hist_Max client)) in
  History_Run P client name = (rls, None) ->
  Reverse_SortByRevision P rls = map Some rs ->
  rs <> [] ->
  (0 < hist_Max client)%Z ->
  Forall (fun r => rel_Info r <> None) (firstn n rs) ->
  ParseOutputFormat P (hist_OutputFormat client) = (format, None) ->
  exists h,
    getReleaseHistory P (map Some (firstn n rs)) = Returned h
    /\ length h = n
    /\ map ri_Revision h = rev (map rel_Version (firstn n rs))
    /\ getHistory P client name
       = Returned (match marshalHistory P format h with
                   | (history, None) => (history, None)
                   | (_, Some e) => ("", Some e)
                   end)
    /\ (StronglySorted Z.ge (map rel_Version rs) ->
          StronglySorted Z.le (map ri_Revision h)
          /\ (forall shown hidden,
                In shown (map ri_Revision h) ->
                In hidden (map rel_Version (skipn n rs)) ->
                (hidden <= shown)%Z)).
Proof.
  intros n Hrun Hsorted Hne Hmax Hinfo Hfmt.
  assert (Hread : Forall readable (map Some (firstn n rs))).
  { apply Forall_fmap. eapply Forall_impl; [exact Hinfo|]. cbn.
    intros r Hr. destruct (rel_Info r) as [info|] eqn:Hi; [|congruence].
    now exists r, info. }
  unfold getReleaseHistory in *.
  destruct (getReleaseHistory_from_outcome (rev (map Some (firstn n rs))) []) as [Hiff _].
  destruct (getReleaseHistory_from P (rev (map Some (firstn n rs))) []) as [h| |] eqn:Hh;
    try (apply Forall_rev_iff, Hiff in Hread; discriminate Hread).
  destruct (getReleaseHistory_from_returned _ _ _ Hh) as (h' & -> & Hall). cbn [app] in *.
  apply Forall2_rev in Hall. rewrite rev_involutive in Hall.
  apply madeFrom_revisions in Hall. rewrite map_rev in Hall.
  assert (Hrev : map ri_Revision h' = rev (map rel_Version (firstn n rs))).
  { rewrite <- Hall. now rewrite rev_involutive. }
  assert (Hlen : length h' = n).
  { rewrite <- (length_map ri_Revision), Hrev, length_rev, length_map, length_firstn.
    subst n. lia. }
  exists h'. split; [reflexivity|]. split; [exact Hlen|]. split; [exact Hrev|]. split.
  - unfold getHistory. rewrite Hrun, Hsorted, firstReleases_firstn, min_to_nat, length_map.
    fold n. rewrite firstn_map, length_map.
    assert (Hpos : length (firstn n rs) <> 0).
    { assert (Hrs : length rs <> 0) by (destruct rs; [congruence|discriminate]).
      rewrite length_firstn. subst n. lia. }
    destruct (Nat.eqb_spec (length (firstn n rs)) 0) as [H0|_]; [congruence|].
    unfold getReleaseHistory. rewrite Hh, Hfmt.
    now destruct (marshalHistory P format h') as [history [e|]].
  - intros Hss. rewrite Hrev. split.
    + apply StronglySorted_impl with (fun x y => (y >= x)%Z); [intros x y; lia|].
      apply StronglySorted_rev. rewrite <- firstn_map. now apply StronglySorted_firstn.
    + intros shown hidden Hs Hhid. apply in_rev in Hs.
      rewrite <- (firstn_skipn n rs), map_app in Hss.
      apply Z.ge_le. eapply StronglySorted_app_1_elem_of; [exact Hss| |];
        now apply list_elem_of_In.
Qed.

End HistoryProperties.

(** * Properties of the lint action and of [transform] *)

Section LintProperties.

Context {error Values File : Type} `{EqDecision error}.
Variable P : LintPackages error Values File.

Implicit Types (l : Lint) (vals : Values) (result : LintResult error).
Implicit Types (path : string) (paths : list string).

Lemma lintChart_error_linter path vals namespace strict :
  snd (lintChart P path vals namespace strict) <> None ->
  fst (lintChart P path vals namespace strict) = zeroLinter.
Proof.
  unfold lintChart. destruct (hasSuffix path ".tgz").
  - destruct (ioutil_TempDir P "" "helm-lint") as [tempDir [e|]]; [reflexivity|].
    destruct (os_Open P path) as [file [e|]]; [reflexivity|].
    destruct (chartutil_Expand P tempDir file) as [e|]; [reflexivity|].
    destruct (Z.leb _ 0); [reflexivity|].
    destruct (os_Stat P _); [reflexivity|]. cbn. congruence.
  - destruct (os_Stat P _); [reflexivity|]. cbn. congruence.
Qed.

(** X18: whenever [lintChart] returns an error the linter next to it is
    the zero value, with no message and severity 0. A path that does not
    end in ".tgz" is its own chart directory: without a Chart.yaml the
    error is [errLintNoChart], with one the result is what the linter
    makes of that directory and of the values as given. An archive whose
    base name has no hyphen after its first byte is never linted. *)
Theorem lintChart_errors path vals namespace strict :
  (snd (lintChart P path vals namespace strict) <> None ->
     fst (lintChart P path vals namespace strict) = zeroLinter)
  /\ (hasSuffix path ".tgz" = false ->
        lintChart P path vals namespace strict
        = match os_Stat P (filepath_Join2 P path "Chart.yaml") with
          | Some _ => (zeroLinter, Some (errLintNoChart P))
          | None => (lint_All P path vals namespace strict, None)
          end)
  /\ (hasSuffix path ".tgz" = true ->
      (lastIndex (filepath_Base P path) "-" <= 0)%Z ->
      snd (lintChart P path vals namespace strict) <> None)
  /\ (snd (lintChart P path vals namespace strict) = None ->
        exists chartPath,
          os_Stat P (filepath_Join2 P chartPath "Chart.yaml") = None
          /\ fst (lintChart P path vals namespace strict)
             = lint_All P chartPath vals namespace strict).
Proof.
  split; [apply lintChart_error_linter|].
  unfold lintChart. split; [|split].
  - intros ->. reflexivity.
  - intros -> Hidx.
    destruct (ioutil_TempDir P "" "helm-lint") as [tempDir [e|]]; [discriminate|].
    destruct (os_Open P path) as [file [e|]]; [discriminate|].
    destruct (chartutil_Expand P tempDir file) as [e|]; [discriminate|].
    apply Z.leb_le in Hidx. rewrite Hidx. discriminate.
  - destruct (hasSuffix path ".tgz").
    + destruct (ioutil_TempDir P "" "helm-lint") as [tempDir [e|]]; [discriminate|].
      destruct (os_Open P path) as [file [e|]]; [discriminate|].
      destruct (chartutil_Expand P tempDir file) as [e|]; [discriminate|].
      destruct (Z.leb _ 0); [discriminate|].
      destruct (os_Stat P _) eqn:Hstat; [discriminate|]. intros _.
      eexists. split; [exact Hstat|reflexivity].
    + destruct (os_Stat P _) eqn:Hstat; [discriminate|]. intros _.
      eexists. split; [exact Hstat|reflexivity].
Qed.

Lemma combine_zero_r result : combine result zeroLintResult = result.
Proof.
  destruct result as [n ms es]. unfold combine; cbn.
  now rewrite Z.add_0_r, !app_nil_r.
Qed.

Lemma combine_assoc (r1 r2 r3 : LintResult error) :
  combine (combine r1 r2) r3 = combine r1 (combine r2 r3).
Proof.
  unfold combine; cbn. now rewrite Z.add_assoc, <- !app_assoc.
Qed.

Lemma errorMessages_loop result (msgs : list (Message error)) :
  foldl (fun result msg =>
           if Z.eqb (msg_Severity msg) (ErrorSev P)
           then mkLintResult (TotalChartsLinted result) (res_Messages result)
                  (res_Errors result ++ [msg_Err msg])
           else result)
    result msgs
  = mkLintResult (TotalChartsLinted result) (res_Messages result)
      (res_Errors result
       ++ map msg_Err (List.filter (fun m => Z.eqb (msg_Severity m) (ErrorSev P)) msgs)).
Proof.
  revert result. induction msgs as [|m msgs IH]; intros result; cbn.
  - rewrite app_nil_r. now destruct result.
  - rewrite IH. destruct (Z.eqb (msg_Severity m) (ErrorSev P)); cbn; [|reflexivity].
    now rewrite <- app_assoc.
Qed.

Lemma runPath_combine l tol vals result path :
  runPath P l tol vals result path
  = combine result (runPath P l tol vals zeroLintResult path).
Proof.
  unfold runPath.
  destruct (lintChart P path vals (lint_Namespace l) (lint_Strict l)) as [linter [e|]].
  - destruct (bool_decide (e = errLintNoChart P)), (Z.leb tol (lin_HighestSeverity linter));
      destruct result as [n ms es]; unfold combine; cbn;
      rewrite ?Z.add_0_r, ?app_nil_r, <- ?app_assoc; reflexivity.
  - rewrite !errorMessages_loop. destruct result as [n ms es]. unfold combine; cbn.
    reflexivity.
Qed.

Lemma foldl_runPath l tol vals result paths :
  foldl (runPath P l tol vals) result paths
  = combine result (foldl (runPath P l tol vals) zeroLintResult paths).
Proof.
  revert result. induction paths as [|path paths IH]; intros result; cbn.
  - now rewrite combine_zero_r.
  - rewrite IH, (IH (runPath P l tol vals zeroLintResult path)).
    now rewrite runPath_combine, combine_assoc.
Qed.

(** X19: linting a list of paths is linting its parts: the result for
    [paths1 ++ paths2] has the sum of the two chart counts and the
    messages and errors of the first part followed by those of the
    second; no paths give the zero result. *)
Theorem Run_app l paths1 paths2 vals :
  Run P l (paths1 ++ paths2) vals = combine (Run P l paths1 vals) (Run P l paths2 vals)
  /\ Run P l [] vals = zeroLintResult.
Proof.
  split; [|reflexivity]. unfold Run. rewrite foldl_app. apply foldl_runPath.
Qed.

Lemma Run_cons l path paths vals :
  Run P l (path :: paths) vals
  = combine (runPath P l (if lint_Strict l then WarningSev P else ErrorSev P) vals
               zeroLintResult path)
      (Run P l paths vals).
Proof.
  unfold Run. cbn [foldl]. apply foldl_runPath.
Qed.

(** X20: [TotalChartsLinted] counts the paths for which [lintChart]
    returned no error, so it lies between 0 and the number of paths, and
    the messages of the result are the messages of those charts, in the
    order of the paths; a path that failed adds no message. *)
Theorem Run_counts l paths vals :
  TotalChartsLinted (Run P l paths vals)
  = Z.of_nat (length (List.filter
                (fun path => match snd (lintChart P path vals (lint_Namespace l) (lint_Strict l)) with
                             | None => true
                             | Some _ => false
                             end) paths))
  /\ (0 <= TotalChartsLinted (Run P l paths vals) <= Z.of_nat (length paths))%Z
  /\ res_Messages (Run P l paths vals)
     = flat_map (fun path =>
                   match lintChart P path vals (lint_Namespace l) (lint_Strict l) with
                   | (linter, None) => lin_Messages linter
                   | (_, Some _) => []
                   end) paths.
Proof.
  assert (H : TotalChartsLinted (Run P l paths vals)
              = Z.of_nat (length (List.filter
                  (fun path =>
                     match snd (lintChart P path vals (lint_Namespace l) (lint_Strict l)) with
                     | None => true
                     | Some _ => false
                     end) paths))
              /\ res_Messages (Run P l paths vals)
                 = flat_map (fun path =>
                     match lintChart P path vals (lint_Namespace l) (lint_Strict l) with
                     | (linter, None) => lin_Messages linter
                     | (_, Some _) => []
                     end) paths).
  { induction paths as [|path paths [IHn IHm]]; [split; reflexivity|].
    rewrite Run_cons. unfold combine, runPath. cbn [TotalChartsLinted res_Messages].
    cbn [List.filter flat_map]. rewrite IHn, IHm.
    destruct (lintChart P path vals (lint_Namespace l) (lint_Strict l)) as [linter [e|]];
      cbn [snd].
    - destruct (bool_decide (e = errLintNoChart P)), (Z.leb _ (lin_HighestSeverity linter));
        cbn; split; reflexivity.
    - rewrite errorMessages_loop. cbn. split; [lia|reflexivity]. }
  destruct H as [Hn Hm]. split; [exact Hn|]. split; [|exact Hm].
  rewrite Hn. pose proof (List.filter_length_le
    (fun path => match snd (lintChart P path vals (lint_Namespace l) (lint_Strict l)) with
                 | None => true
                 | Some _ => false
                 end) paths). lia.
Qed.

(** X21: with both thresholds above the zero severity, the errors of
    the result are, path by path: [errLintNoChart], once, for a path
    without a chart; nothing for any other failure of [lintChart], which
    is dropped; and for a linted chart the errors of its messages of
    severity [ErrorSev], in order. *)
Theorem Run_errors l paths vals :
  (0 < WarningSev P)%Z ->
  (0 < ErrorSev P)%Z ->
  res_Errors (Run P l paths vals)
  = flat_map (fun path =>
                match lintChart P path vals (lint_Namespace l) (lint_Strict l) with
                | (_, Some e) => if bool_decide (e = errLintNoChart P) then [e] else []
                | (linter, None) =>
                    map msg_Err
                      (List.filter (fun m => Z.eqb (msg_Severity m) (ErrorSev P))
                         (lin_Messages linter))
                end) paths.
Proof.
  intros Hw He. induction paths as [|path paths IH]; [reflexivity|].
  rewrite Run_cons. unfold combine, runPath. cbn [res_Errors flat_map]. rewrite IH.
  f_equal.
  pose proof (lintChart_error_linter path vals (lint_Namespace l) (lint_Strict l)) as Hzero.
  destruct (lintChart P path vals (lint_Namespace l) (lint_Strict l)) as [linter [e|]];
    cbn [fst snd] in Hzero.
  - rewrite Hzero by discriminate. cbn [zeroLinter lin_HighestSeverity].
    assert (Htol : Z.leb (if lint_Strict l then WarningSev P else ErrorSev P) 0 = false)
      by (apply Z.leb_gt; destruct (lint_Strict l); lia).
    rewrite Htol. now destruct (bool_decide (e = errLintNoChart P)).
  - now rewrite errorMessages_loop.
Qed.

End LintProperties.

Lemma replaceAll_from_eq skip old new src :
  replaceAll_from skip old new src
  = match src with
    | EmptyString => EmptyString
    | String c rest =>
        match skip with
        | S k => replaceAll_from k old new rest
        | O =>
            if String.prefix old src
            then (new ++ replaceAll_from (String.length old - 1) old new rest)%string
            else String c (replaceAll_from 0 old new rest)
        end
    end.
Proof. now destruct src. Qed.

Lemma replaceAll_from_skip pre old new s :
  replaceAll_from (String.length pre) old new (pre ++ s) = replaceAll_from 0 old new s.
Proof.
  induction pre as [|c pre IH]; [reflexivity|]. exact IH.
Qed.

Lemma replaceAll_from_occurrence c old new s :
  replaceAll_from 0 (String c old) new (String c old ++ s)
  = (new ++ replaceAll_from 0 (String c old) new s)%string.
Proof.
  change (String c old ++ s)%string with (String c (old ++ s)).
  rewrite replaceAll_from_eq.
  pose proof (prefix_app (String c old) s) as Hp.
  change (String c old ++ s)%string with (String c (old ++ s)) in Hp. rewrite Hp.
  replace (String.length (String c old) - 1) with (String.length old) by (cbn; lia).
  now rewrite replaceAll_from_skip.
Qed.

Lemma replaceAll_from_absent old new s :
  occurs old s = false -> replaceAll_from 0 old new s = s.
Proof.
  induction s as [|c s IH]; [reflexivity|].
  rewrite occurs_eq, replaceAll_from_eq. intros H.
  apply orb_false_iff in H as [Hp Hs]. now rewrite Hp, IH.
Qed.

Lemma replaceAll_from_plain c old new a s :
  ~ In c (list_ascii_of_string a) ->
  replaceAll_from 0 (String c old) new (a ++ s)
  = (a ++ replaceAll_from 0 (String c old) new s)%string.
Proof.
  induction a as [|x a IH]; [reflexivity|]. intros Hx.
  change (String x a ++ s)%string with (String x (a ++ s)).
  rewrite replaceAll_from_eq. cbn [String.prefix].
  destruct (ascii_dec c x) as [->|_]; [exfalso; apply Hx; now left|].
  rewrite IH; [reflexivity|]. intros Hin. apply Hx. now right.
Qed.

(** X22: [transform] leaves a text without the placeholder as it is,
    puts the replacement where the text starts with the placeholder and
    goes on behind it, and copies a stretch of text that holds no "<" and
    goes on behind it: a text written as plain stretches and placeholders
    comes out with every placeholder replaced and everything else
    kept. *)
Theorem transform_segments (src plain replacement : string) :
  (occurs "<CHARTNAME>" src = false -> transform src replacement = src)
  /\ transform ("<CHARTNAME>" ++ src) replacement
     = (replacement ++ transform src replacement)%string
  /\ (~ In "<"%char (list_ascii_of_string plain) ->
        transform (plain ++ src) replacement
        = (plain ++ transform src replacement)%string)
  /\ transform "" replacement = "".
Proof.
  unfold transform. split; [apply replaceAll_from_absent|].
  split; [apply replaceAll_from_occurrence|].
  split; [apply replaceAll_from_plain|reflexivity].
Qed.

(** * The further properties on concrete inputs *)

Lemma persistent_loader_built_once_defaults :
  usePersistentConfig (defaultConfigFlags (prodCluster "") true []) = true
  /\ clientConfig (defaultConfigFlags (prodCluster "") true []) = None
  /\ fst (NewClientConfigFromBytes (prodCluster "") []) = Some tt
  /\ ToRawKubeConfigLoader nilLoaderCluster
       (snd (ToRawKubeConfigLoader (prodCluster "")
               (defaultConfigFlags (prodCluster "") true [])))
     = (Some tt, snd (ToRawKubeConfigLoader (prodCluster "")
                        (defaultConfigFlags (prodCluster "") true []))).
Proof.
  split; [reflexivity|]. split; [reflexivity|]. split; [reflexivity|].
  exact (proj2 (persistent_loader_built_once (prodCluster "")
                  (defaultConfigFlags (prodCluster "") true []) tt
                  eq_refl eq_refl eq_refl) nilLoaderCluster).
Defined.

Lemma persistent_loader_nil_not_cached_defaults :
  usePersistentConfig (defaultConfigFlags nilLoaderCluster true []) = true
  /\ clientConfig (defaultConfigFlags nilLoaderCluster true []) = None
  /\ fst (NewClientConfigFromBytes nilLoaderCluster []) = None
  /\ ToRawKubeConfigLoader nilLoaderCluster (defaultConfigFlags nilLoaderCluster true [])
     = (None, defaultConfigFlags nilLoaderCluster true []).
Proof.
  split; [reflexivity|]. split; [reflexivity|]. split; [reflexivity|].
  exact (proj1 (persistent_loader_nil_not_cached nilLoaderCluster
                  (defaultConfigFlags nilLoaderCluster true [])
                  eq_refl eq_refl eq_refl)).
Defined.

Lemma getter_ToRawKubeConfigLoader_footprint_two_objects :
  exists loader st',
    getter_ToRawKubeConfigLoader (prodCluster "") (Some 1)
      (mkState [defaultConfigFlags (prodCluster "") false [];
                defaultConfigFlags (prodCluster "") true []] (Some 0) true)
    = Returned (loader, st')
    /\ loader = Some tt
    /\ heap st' !! 0 = Some (defaultConfigFlags (prodCluster "") false []).
Proof.
  pose proof (getter_ToRawKubeConfigLoader_footprint (prodCluster "") 1
                (mkState [defaultConfigFlags (prodCluster "") false [];
                          defaultConfigFlags (prodCluster "") true []] (Some 0) true)) as H.
  cbn [heap lookup list_lookup] in H.
  destruct H as (loader & st' & Hcall & Hl & _ & _ & _ & Hother & _).
  exists loader, st'. split; [exact Hcall|]. split; [exact Hl|].
  rewrite (Hother 0) by discriminate. reflexivity.
Defined.

Lemma ToRESTConfig_ignores_overrides_defaults :
  usePersistentConfig (defaultConfigFlags (prodCluster "") false ["001"%byte]) = false
  /\ usePersistentConfig (@zeroConfigFlags unit) = false
  /\ outcome_map fst
       (ToRESTConfig string (prodCluster "") localhostRestConfig
          (defaultConfigFlags (prodCluster "") false ["001"%byte]))
     = outcome_map fst
         (ToRESTConfig string (prodCluster "") localhostRestConfig zeroConfigFlags).
Proof.
  split; [reflexivity|]. split; [reflexivity|].
  exact (proj2 (ToRESTConfig_ignores_overrides (prodCluster "") localhostRestConfig
                  (defaultConfigFlags (prodCluster "") false ["001"%byte]) zeroConfigFlags
                  eq_refl eq_refl)).
Defined.

Lemma getNamespace_in_reachable_states_nil_loader :
  rtc (step nilLoaderCluster) initialState
    (snd (kubeConfig nilLoaderCluster ["001"%byte] initialState))
  /\ getNamespace nilLoaderCluster []
       (snd (kubeConfig nilLoaderCluster ["001"%byte] initialState))
     = Panicked NilDereference.
Proof.
  assert (H : rtc (step nilLoaderCluster) initialState
                (snd (kubeConfig nilLoaderCluster ["001"%byte] initialState)))
    by (apply rtc_once, step_kubeConfig).
  split; [exact H|].
  exact (proj1 (getNamespace_in_reachable_states nilLoaderCluster [] _ H)).
Defined.


Lemma NewActionConfig_configmaps_prod :
  In (Getenv (prodCluster "configmaps") "HELM_DRIVER") ["configmap"; "configmaps"]
  /\ KubernetesClientSet (prodCluster "configmaps")
       (kube_New (fst (kubeConfig (prodCluster "configmaps") [] initialState))) = (tt, None)
  /\ workingNamespace (prodCluster "configmaps") false []
       (snd (kubeConfig (prodCluster "configmaps") [] initialState))
     = Returned ("prod", snd (kubeConfig (prodCluster "configmaps") [] initialState))
  /\ NewActionConfig (prodCluster "configmaps") false [] initialState
     = Returned ({| cfg_RESTClientGetter := Some 0;
                    cfg_KubeClient := kube_New (Some 0);
                    cfg_Releases := storage_Init (NewConfigMaps (ConfigMaps (CoreV1 tt) "prod"));
                    cfg_Log := None |},
                 snd (kubeConfig (prodCluster "configmaps") [] initialState)).
Proof.
  assert (Hd : In (Getenv (prodCluster "configmaps") "HELM_DRIVER") ["configmap"; "configmaps"])
    by (right; left; reflexivity).
  split; [exact Hd|]. split; [reflexivity|]. split; [reflexivity|].
  exact (proj1 (NewActionConfig_configmaps (prodCluster "configmaps") false [] initialState
                  tt "prod" _ Hd eq_refl eq_refl)).
Defined.



Lemma AddFlags_names_distinct_after_verbose :
  NoDup (map Name [mkFlag "verbose" "v" (BoolValue false) "more output"])
  /\ NoDup (map Name (AddFlags (defaultConfigFlags (prodCluster "") false [])
                        [mkFlag "verbose" "v" (BoolValue false) "more output"])).
Proof.
  assert (Hnd : NoDup (map Name [mkFlag "verbose" "v" (BoolValue false) "more output"]))
    by (repeat constructor; intros H; inversion H).
  split; [exact Hnd|].
  apply (proj2 (proj2 (proj2 (AddFlags_names_distinct
           (defaultConfigFlags (prodCluster "") false [])
           [mkFlag "verbose" "v" (BoolValue false) "more output"]))) Hnd).
  intros fl [<-|[]]. cbn.
  intros H. repeat (destruct H as [H|H]; [discriminate H|]). exact H.
Defined.

Lemma computeDiscoverCacheDir_scheme_apiserver :
  occurs "https://" "10.0.0.1:6443" = false
  /\ occurs "http://" "10.0.0.1:6443" = false
  /\ computeDiscoverCacheDir (fun _ => 1) (String.concat "/") "/home/helm/.kube/cache/discovery"
       "https://10.0.0.1:6443"
     = "/home/helm/.kube/cache/discovery/10.0.0.1_6443".
Proof.
  split; [reflexivity|]. split; [reflexivity|].
  exact (eq_trans
           (proj1 (computeDiscoverCacheDir_scheme (fun _ => 1) (String.concat "/")
                     "/home/helm/.kube/cache/discovery" "10.0.0.1:6443" eq_refl eq_refl))
           eq_refl).
Defined.

Lemma formatChartname_MISSING_no_metadata :
  (Some (mkChart None) = None
   \/ exists ch, Some (mkChart None) = Some ch /\ ch_Metadata ch = None)
  /\ formatChartname (storedHistory []) (Some (mkChart None)) = "MISSING".
Proof.
  assert (H : Some (mkChart None) = None
              \/ exists ch, Some (mkChart None) = Some ch /\ ch_Metadata ch = None)
    by (right; exists (mkChart None); split; reflexivity).
  split; [exact H|].
  exact (proj2 (proj1 (formatChartname_MISSING (storedHistory []) (Some (mkChart None)))) H).
Defined.

Lemma getReleaseHistory_reverses_two_releases :
  getReleaseHistory (storedHistory []) [Some (alpineRelease 1); Some (alpineRelease 2)]
  = Returned [releaseInfoOf (storedHistory []) (alpineRelease 2)
                (mkInfo (Some "Mon Oct 3 10:15:13 2016") "Upgraded successfully" "deployed");
              releaseInfoOf (storedHistory []) (alpineRelease 1)
                (mkInfo (Some "Mon Oct 3 10:15:13 2016") "Upgraded successfully" "deployed")]
  /\ Forall2 (fun v o => exists r, o = Some r /\ v = rel_Version r)
       [1%Z; 2%Z] [Some (alpineRelease 1); Some (alpineRelease 2)].
Proof.
  assert (H : getReleaseHistory (storedHistory [])
                [Some (alpineRelease 1); Some (alpineRelease 2)]
              = Returned [releaseInfoOf (storedHistory []) (alpineRelease 2)
                            (mkInfo (Some "Mon Oct 3 10:15:13 2016") "Upgraded successfully"
                               "deployed");
                          releaseInfoOf (storedHistory []) (alpineRelease 1)
                            (mkInfo (Some "Mon Oct 3 10:15:13 2016") "Upgraded successfully"
                               "deployed")]) by reflexivity.
  split; [exact H|].
  exact (proj2 (proj2 (proj2 (proj2 (getReleaseHistory_reverses (storedHistory []) _)) _ H))).
Defined.

Lemma marshalHistory_rows_xml :
  "xml" <> YAML (storedHistory []) /\ "xml" <> JSON (storedHistory [])
  /\ "xml" <> TableFormat (storedHistory [])
  /\ marshalHistory (storedHistory []) "xml" [] = ("", Some "invalid format type").
Proof.
  split; [discriminate|]. split; [discriminate|]. split; [discriminate|].
  apply (proj1 (proj2 (proj2 (proj2 (marshalHistory_rows (storedHistory []) [] "xml")))));
    discriminate.
Defined.

Lemma getHistory_nothing_to_show_max_zero :
  History_Run (storedHistory [Some (alpineRelease 1)]) (mkHistory 0 "no such format") "angry-bird"
  = ([Some (alpineRelease 1)], None)
  /\ getHistory (storedHistory [Some (alpineRelease 1)]) (mkHistory 0 "no such format")
       "angry-bird"
     = Returned ("", None).
Proof.
  split; [reflexivity|].
  apply (proj2 (getHistory_nothing_to_show (storedHistory [Some (alpineRelease 1)])
                  (mkHistory 0 "no such format") "angry-bird" [Some (alpineRelease 1)]));
    [reflexivity|left; reflexivity].
Defined.

Lemma getHistory_shows_latest_two_of_three :
  getHistory
    (storedHistory [Some (alpineRelease 1); Some (alpineRelease 2); Some (alpineRelease 3)])
    (mkHistory 2 "json") "angry-bird"
  = Returned ("alpine-0.1.0,alpine-0.1.0", None)
  /\ exists h,
       getReleaseHistory
         (storedHistory [Some (alpineRelease 1); Some (alpineRelease 2); Some (alpineRelease 3)])
         [Some (alpineRelease 3); Some (alpineRelease 2)] = Returned h
       /\ map ri_Revision h = [2%Z; 3%Z].
Proof.
  destruct (getHistory_shows_latest
              (storedHistory [Some (alpineRelease 1); Some (alpineRelease 2);
                              Some (alpineRelease 3)])
              (mkHistory 2 "json") "angry-bird"
              [Some (alpineRelease 1); Some (alpineRelease 2); Some (alpineRelease 3)]
              [alpineRelease 3; alpineRelease 2; alpineRelease 1] "json"
              eq_refl eq_refl ltac:(discriminate) eq_refl
              ltac:(repeat constructor; discriminate) eq_refl)
    as (h & Hh & _ & Hrev & Hget & _).
  split.
  - rewrite Hget. cbn in Hh. injection Hh as <-. reflexivity.
  - exists h. split; [exact Hh|exact Hrev].
Defined.

Lemma lintChart_errors_archive_without_hyphen :
  hasSuffix "plain.tgz" ".tgz" = true
  /\ (lastIndex (filepath_Base oneGoodChart "plain.tgz") "-" <= 0)%Z
  /\ snd (lintChart oneGoodChart "plain.tgz" tt "default" false) <> None.
Proof.
  assert (Hidx : (lastIndex (filepath_Base oneGoodChart "plain.tgz") "-" <= 0)%Z)
    by (vm_compute; discriminate).
  split; [reflexivity|]. split; [exact Hidx|].
  exact (proj1 (proj2 (proj2 (lintChart_errors oneGoodChart "plain.tgz" tt "default" false)))
           eq_refl Hidx).
Defined.

Lemma Run_errors_three_paths :
  (0 < WarningSev oneGoodChart)%Z
  /\ (0 < ErrorSev oneGoodChart)%Z
  /\ res_Errors (Run oneGoodChart (mkLint false "default")
                   ["good"; "missing"; "broken-1.0.tgz"] tt)
     = ["icon is recommended"; "no chart found for linting (missing Chart.yaml)"].
Proof.
  split; [reflexivity|]. split; [reflexivity|].
  exact (eq_trans
           (Run_errors oneGoodChart (mkLint false "default")
              ["good"; "missing"; "broken-1.0.tgz"] tt eq_refl eq_refl)
           eq_refl).
Defined.

Lemma transform_segments_chart_name :
  ~ In "<"%char (list_ascii_of_string "name: ")
  /\ transform ("name: " ++ "<CHARTNAME>" ++ "") "alpine" = "name: alpine".
Proof.
  assert (H : ~ In "<"%char (list_ascii_of_string "name: ")).
  { cbn. intros H. repeat (destruct H as [H|H]; [discriminate H|]). exact H. }
  split; [exact H|].
  destruct (transform_segments ("<CHARTNAME>" ++ "") "name: " "alpine") as (_ & _ & Hplain & _).
  rewrite (Hplain H).
  destruct (transform_segments "" "name: " "alpine") as (_ & Hhole & _ & Hnil).
  now rewrite Hhole, Hnil.
Defined.
